(** * PlaylistSplitter: a shallow embedding of [PlaylistSplitter.py]

    The Python class [PlaylistSplitter] talks to the Spotify Web API through a
    [spotipy.Spotify] client.  The client is an external collaborator: it is
    modelled here as an in-memory catalog with a call log, and the methods of
    the class are embedded as computations in a state-and-exception monad
    over that catalog.  Progress bars ([tqdm]) and [print] are not
    modelled: they do not influence results, catalog calls or exceptions. *)

From stdpp Require Import gmap strings list fin_maps pretty.


(** ** Python values *)

(** [playlist_splitter_defs.SplitTypes]: a plain [Enum] (no [str] mix-in). *)
Inductive SplitTypes := ARTIST | LABEL.

Definition SplitTypes_value (m : SplitTypes) : string :=
  match m with ARTIST => "artist" | LABEL => "label" end.

(** What a caller may store as split type through [by]: a [str] or a
    member of [SplitTypes] (the annotated parameter type). *)
Inductive mode_value :=
| MStr (s : string)
| MEnum (m : SplitTypes).

Inductive exn :=
| ValueError (msg : string)
| TypeError (msg : string)
| AttributeError (msg : string)
| IndexError (msg : string)
| SpotifyException (msg : string).

(** The two [ValueError]s raised by [split]; the specification calls them
    [ConfigurationError] and [BucketCountMismatch]. *)
Definition ConfigurationError : exn :=
  ValueError "Playlist and split settings must be set to perform split".
Definition BucketCountMismatch : exn :=
  ValueError "List of target playlists must be same length as split pools (or unset)".

(** A track object as returned by the API: [track['id']],
    [[a['id'] for a in track['artists']]] and [track['album']['id']]. *)
Record Track := mkTrack {
  track_id : string;
  track_artists : list string;
  track_album : string
}.

(** A playlist item: [result['track']]. *)
Record Item := mkItem { item_track : Track }.

(** A paging object: [page['items']] and [page['next']] ([None] or an URL). *)
Record Page := mkPage {
  page_items : list Item;
  page_next : option string
}.

(** Python truthiness of [page['next']]: [None] and the empty string are
    falsy. *)
Definition truthy (c : option string) : bool :=
  match c with
  | None => false
  | Some s => negb (String.eqb s EmptyString)
  end.

(** ** The catalog (the [spotipy] client and the service behind it)

    The client library is not part of the repository.  Its operations are
    modelled after the Catalog capability of the specification (section 6):
    reads are served from fixed pages and album labels, writes update the
    stored contents of a playlist, and every call is logged. *)

Inductive Call :=
| CPlaylist (playlist_id : string)
| CNext (url : string)
| CAlbum (album_id : string)
| CCurrentUser
| CUserPlaylistCreate (user name : string)
| CReplaceItems (playlist_id : string) (items : list string)
| CRemoveAllOccurrences (playlist_id : string) (items : list string)
| CAddItems (playlist_id : string) (items : list string).

Record Catalog := mkCatalog {
  cat_playlists : gmap string Page;          (* first page of a playlist *)
  cat_cursors : gmap string Page;            (* page behind a next-URL *)
  cat_albums : gmap string string;           (* album id -> label *)
  cat_user : string;                         (* id of the current user *)
  cat_contents : gmap string (list string);  (* written playlist contents *)
  cat_created : nat;                         (* playlists created so far *)
  cat_calls : list Call                      (* calls issued, oldest first *)
}.

(** ** State-and-exception monad *)

Inductive outcome (A : Type) :=
| Ok (a : A)
| Raise (e : exn)
| OutOfFuel.
Arguments Ok {A} a.
Arguments Raise {A} e.
Arguments OutOfFuel {A}.

Definition M (A : Type) : Type := Catalog → outcome A * Catalog.

Definition ret {A} (a : A) : M A := λ c, (Ok a, c).
Definition raise {A} (e : exn) : M A := λ c, (Raise e, c).
Definition out_of_fuel {A} : M A := λ c, (OutOfFuel, c).
Definition bind {A B} (m : M A) (k : A → M B) : M B :=
  λ c, match m c with
       | (Ok a, c') => k a c'
       | (Raise e, c') => (Raise e, c')
       | (OutOfFuel, c') => (OutOfFuel, c')
       end.

Notation "x <- m ;; k" := (bind m (λ x, k))
  (at level 100, m at next level, right associativity).
Notation "m ;; k" := (bind m (λ _, k))
  (at level 100, right associativity).

(** The catalog with new playlist contents and further calls logged. *)
Definition upd (c : Catalog) (contents : gmap string (list string))
    (calls : list Call) : Catalog :=
  mkCatalog (cat_playlists c) (cat_cursors c) (cat_albums c) (cat_user c)
    contents (cat_created c) (cat_calls c ++ calls).

Definition add_calls (c : Catalog) (calls : list Call) : Catalog :=
  upd c (cat_contents c) calls.

Definition log (call : Call) : M unit :=
  λ c, (Ok tt, add_calls c [call]).

Definition set_contents (pid : string) (f : list string → list string) : M unit :=
  λ c, (Ok tt,
        upd c (<[pid := f (default [] (cat_contents c !! pid))]> (cat_contents c)) []).

Definition from_option {A} (o : option A) (e : exn) : M A :=
  match o with Some a => ret a | None => raise e end.

(** Modelled from the spec: [getPlaylist(id)], the first page of a
    playlist; [client.playlist(playlist_id)['tracks']] in the code. *)
Definition client_playlist (playlist_id : string) : M Page :=
  log (CPlaylist playlist_id) ;;
  λ c, from_option (cat_playlists c !! playlist_id)
         (SpotifyException "playlist not found") c.

(** Modelled from the spec: [getNextPage(cursor)]; [client.next(page)] in
    the code, which makes no request and returns [None] when [page['next']]
    is falsy. *)
Definition client_next (page : Page) : M (option Page) :=
  match page_next page with
  | Some url =>
      if truthy (Some url) then
        log (CNext url) ;;
        p <- (λ c, from_option (cat_cursors c !! url)
                    (SpotifyException "page not found") c) ;;
        ret (Some p)
      else ret None
  | None => ret None
  end.

(** Modelled from the spec: [getAlbumLabel(albumId)];
    [client.album(album_id)['label']] in the code. *)
Definition client_album_label (album_id : string) : M string :=
  log (CAlbum album_id) ;;
  λ c, from_option (cat_albums c !! album_id)
         (SpotifyException "album not found") c.

(** Modelled from the spec: [getCurrentUserId()];
    [client.current_user()['id']] in the code. *)
Definition client_current_user : M string :=
  log CCurrentUser ;; λ c, (Ok (cat_user c), c).

(** Modelled from the spec: [createPlaylist(ownerId, name)] returns the
    reference of a new, empty playlist;
    [client.user_playlist_create(user, name)] in the code. *)
Definition client_user_playlist_create (user name : string) : M string :=
  log (CUserPlaylistCreate user name) ;;
  λ c, let pid := "created:" +:+ pretty (cat_created c) in
       (Ok pid, mkCatalog (cat_playlists c) (cat_cursors c) (cat_albums c)
                  (cat_user c) (<[pid := []]> (cat_contents c))
                  (S (cat_created c)) (cat_calls c)).

(** Modelled from the spec: [replaceItems(playlistId, items)]. *)
Definition client_playlist_replace_items (pid : string) (items : list string) : M unit :=
  log (CReplaceItems pid items) ;; set_contents pid (λ _, items).

(** Modelled from the spec: [removeAllOccurrences(playlistId, items)]. *)
Definition client_playlist_remove_all_occurrences_of_items
    (pid : string) (items : list string) : M unit :=
  log (CRemoveAllOccurrences pid items) ;;
  set_contents pid (λ old, filter (λ x, x ∉ items) old).

(** Modelled from the spec: [addItems(playlistId, items)] appends the
    items at the end of the playlist. *)
Definition client_playlist_add_items (pid : string) (items : list string) : M unit :=
  log (CAddItems pid items) ;; set_contents pid (λ old, old ++ items).

(** ** The [PlaylistSplitter] object *)

(** [self.__target_playlists] holds either the list passed to [into] or the
    generator expression built by [split]; [TargetGen n] is that generator
    with [n] playlists still to be created. *)
Inductive targets :=
| TargetList (l : list string)
| TargetGen (n : nat).

Record Splitter := mkSplitter {
  origin_playlist : option string;
  target_playlists : option targets;
  split_type : option mode_value;
  split_pools : option (list (list string))
}.

(** State after [__init__]. *)
Definition init : Splitter := mkSplitter None None None None.

Definition by_ (self : Splitter) (split_by : mode_value)
    (split_lists : list (list string)) : Splitter :=
  mkSplitter (origin_playlist self) (target_playlists self)
    (Some split_by) (Some split_lists).

Definition split_by := by_.

Definition playlist (self : Splitter) (playlist_id : string) : Splitter :=
  mkSplitter (Some playlist_id) (target_playlists self)
    (split_type self) (split_pools self).

Definition into (self : Splitter) (playlist_ids : list string) : Splitter :=
  mkSplitter (origin_playlist self) (Some (TargetList playlist_ids))
    (split_type self) (split_pools self).

(** ** Classification *)

(** [enumerate(l)] *)
Fixpoint enumerate_from {A} (start : nat) (l : list A) : list (nat * A) :=
  match l with
  | [] => []
  | x :: r => (start, x) :: enumerate_from (S start) r
  end.
Definition enumerate {A} (l : list A) : list (nat * A) := enumerate_from 0 l.

(** [track_pools[idx].append(x)]; an index out of range raises. *)
Definition append_at (idx : nat) (x : string)
    (track_pools : list (list string)) : M (list (list string)) :=
  if decide (idx < length track_pools)
  then ret (alter (λ l, l ++ [x]) idx track_pools)
  else raise (IndexError "list index out of range").

(** [track_pools[-1].append(x)] *)
Definition append_last (x : string)
    (track_pools : list (list string)) : M (list (list string)) :=
  match track_pools with
  | [] => raise (IndexError "list index out of range")
  | _ => append_at (length track_pools - 1) x track_pools
  end.

(** [[list() for _ in range(len(self.__split_pools) + 1)]]: distinct lists,
    no aliasing. *)
Definition fresh_track_pools (pools : list (list string)) : list (list string) :=
  replicate (length pools + 1) [].

(** [{'id': track['id'], 'artists': {artist['id'] for artist in track['artists']}}] *)
Record SlimTrack := mkSlim {
  slim_id : string;
  slim_artists : gset string
}.

Definition slim (track : Track) : SlimTrack :=
  mkSlim (track_id track) (list_to_set (track_artists track)).

(** [track['artists'].intersection(set(pool))] as a condition: a set is
    truthy when it is not empty. *)
Definition artists_intersect (artists : gset string) (pool : list string) : bool :=
  bool_decide (artists ∩ list_to_set pool ≠ (∅ : gset string)).

(** The inner [for idx, pool in enumerate(...)] loop with its [break] and
    its [else] clause. *)
Fixpoint artist_scan (track : SlimTrack) (pools : list (nat * list string))
    (track_pools : list (list string)) : M (list (list string)) :=
  match pools with
  | [] => append_last (slim_id track) track_pools
  | (idx, pool) :: rest =>
      if artists_intersect (slim_artists track) pool
      then append_at idx (slim_id track) track_pools
      else artist_scan track rest track_pools
  end.

Fixpoint artist_loop (pools : list (list string)) (slimmed_tracks : list SlimTrack)
    (track_pools : list (list string)) : M (list (list string)) :=
  match slimmed_tracks with
  | [] => ret track_pools
  | track :: rest =>
      track_pools' <- artist_scan track (enumerate pools) track_pools ;;
      artist_loop pools rest track_pools'
  end.

Definition split_by_artist (pools : list (list string)) (tracks : list Track)
    : M (list (list string)) :=
  let slimmed_tracks := map slim tracks in
  artist_loop pools slimmed_tracks (fresh_track_pools pools).

(** [track['label'] in pool] *)
Definition label_in (label : string) (pool : list string) : bool :=
  bool_decide (label ∈ pool).

Fixpoint label_scan (tid label : string) (pools : list (nat * list string))
    (track_pools : list (list string)) : M (list (list string)) :=
  match pools with
  | [] => append_last tid track_pools
  | (idx, pool) :: rest =>
      if label_in label pool
      then append_at idx tid track_pools
      else label_scan tid label rest track_pools
  end.

(** The loop over the generator [__label_track_slimmer(tracks)]: one album
    lookup per track, made when the loop asks for the next element. *)
Fixpoint label_loop (pools : list (list string)) (tracks : list Track)
    (track_pools : list (list string)) : M (list (list string)) :=
  match tracks with
  | [] => ret track_pools
  | track :: rest =>
      label <- client_album_label (track_album track) ;;
      track_pools' <- label_scan (track_id track) label (enumerate pools) track_pools ;;
      label_loop pools rest track_pools'
  end.

Definition split_by_label (pools : list (list string)) (tracks : list Track)
    : M (list (list string)) :=
  label_loop pools tracks (fresh_track_pools pools).

(** ** Reading and writing playlists *)

(** [__get_all_playlist_items]: the [while] loop; [fuel] bounds the number
    of times its body may run. *)
Fixpoint paging_loop (fuel : nat) (results_tracks : Page)
    (playlist_tracks : list Item) : M (list Item) :=
  if truthy (page_next results_tracks) then
    match fuel with
    | 0 => out_of_fuel
    | S fuel' =>
        r <- client_next results_tracks ;;
        match r with
        | None => raise (TypeError "'NoneType' object is not subscriptable")
        | Some page =>
            paging_loop fuel' page (playlist_tracks ++ page_items page)
        end
    end
  else ret playlist_tracks.

Definition get_all_playlist_items (fuel : nat) (playlist_id : string)
    : M (list Item) :=
  results_tracks <- client_playlist playlist_id ;;
  paging_loop fuel results_tracks ([] ++ page_items results_tracks).

(** [range(start, stop, step)] for a positive [step], by iteration: at most
    [stop] values are below [stop]. *)
Fixpoint range_loop (fuel i stop step : nat) : list nat :=
  match fuel with
  | 0 => []
  | S fuel' =>
      if decide (i < stop) then i :: range_loop fuel' (i + step) stop step
      else []
  end.
Definition py_range (start stop step : nat) : list nat :=
  range_loop stop start stop step.

(** [l[i:j]] for non-negative [i], [j]. *)
Definition slice {A} (l : list A) (i j : nat) : list A :=
  take (j - i) (drop i l).

Definition chunk_track_list (tracks : list string) : list (list string) :=
  map (λ i, slice tracks i (i + 50)) (py_range 0 (length tracks) 50).

Definition placeholder : string := "spotify:track:4RWkW7tGWseUu1T9LzpEBP".

Definition reset_playlist (playlist_id : string) : M unit :=
  client_playlist_replace_items playlist_id [placeholder] ;;
  client_playlist_remove_all_occurrences_of_items playlist_id [placeholder].

Fixpoint add_chunks (playlist : string) (chunked_list : list (list string))
    : M unit :=
  match chunked_list with
  | [] => ret tt
  | chunk :: rest =>
      client_playlist_add_items playlist chunk ;; add_chunks playlist rest
  end.

Definition write_playlist (playlist : string) (track_list : list string)
    : M unit :=
  reset_playlist playlist ;;
  let chunked_list := chunk_track_list track_list in
  add_chunks playlist chunked_list.

Definition make_target_playlist : M string :=
  user <- client_current_user ;;
  client_user_playlist_create user "test1".

(** ** Dispatch and orchestration *)

(** Attributes of a [PlaylistSplitter] instance (private names mangled). *)
Inductive attribute :=
| AttrSplitByArtist
| AttrSplitByLabel
| AttrOther.

Definition attributes : list (string * attribute) :=
  [ ("client", AttrOther);
    ("credentials", AttrOther);
    ("_PlaylistSplitter__origin_playlist", AttrOther);
    ("_PlaylistSplitter__target_playlists", AttrOther);
    ("_PlaylistSplitter__split_type", AttrOther);
    ("_PlaylistSplitter__split_pools", AttrOther);
    ("__enter__", AttrOther);
    ("__exit__", AttrOther);
    ("_PlaylistSplitter__get_credentials_from_env", AttrOther);
    ("_PlaylistSplitter__spotify_login", AttrOther);
    ("login", AttrOther);
    ("by", AttrOther);
    ("split_by", AttrOther);
    ("playlist", AttrOther);
    ("into", AttrOther);
    ("split", AttrOther);
    ("_PlaylistSplitter__do_split", AttrOther);
    ("_PlaylistSplitter__split_by_artist", AttrSplitByArtist);
    ("_PlaylistSplitter__split_by_label", AttrSplitByLabel);
    ("_PlaylistSplitter__label_track_slimmer", AttrOther);
    ("_PlaylistSplitter__make_target_playlist", AttrOther);
    ("_PlaylistSplitter__get_all_playlist_items", AttrOther);
    ("chunk_track_list", AttrOther);
    ("write_playlist", AttrOther);
    ("reset_playlist", AttrOther) ].

Fixpoint assoc {A} (name : string) (l : list (string * A)) : option A :=
  match l with
  | [] => None
  | (k, v) :: r => if String.eqb k name then Some v else assoc name r
  end.

(** ['_PlaylistSplitter__split_by_' + self.__split_type] *)
Definition method_name (mode : mode_value) : M string :=
  match mode with
  | MStr s => ret ("_PlaylistSplitter__split_by_" +:+ s)
  | MEnum _ =>
      raise (TypeError "can only concatenate str (not 'SplitTypes') to str")
  end.

Definition getattr (name : string) : M attribute :=
  from_option (assoc name attributes)
    (AttributeError "'PlaylistSplitter' object has no attribute").

(** Calling the attribute found with [(origin_tracks)]. *)
Definition call_attribute (a : attribute) (pools : list (list string))
    (origin_tracks : list Track) : M (list (list string)) :=
  match a with
  | AttrSplitByArtist => split_by_artist pools origin_tracks
  | AttrSplitByLabel => split_by_label pools origin_tracks
  | AttrOther => raise (TypeError "attribute cannot be called with one argument")
  end.

(** [next] on [self.__target_playlists]: a list element, or the next
    playlist created by the generator. *)
Definition next_target (t : targets) : M (option (string * targets)) :=
  match t with
  | TargetList [] => ret None
  | TargetList (p :: r) => ret (Some (p, TargetList r))
  | TargetGen 0 => ret None
  | TargetGen (S n) => p <- make_target_playlist ;; ret (Some (p, TargetGen n))
  end.

(** [for tracks, playlist in zip(track_pools, targets, strict=True)] *)
Fixpoint zip_loop (track_pools : list (list string)) (t : targets) : M unit :=
  match track_pools with
  | [] =>
      r <- next_target t ;;
      match r with
      | None => ret tt
      | Some _ => raise (ValueError "zip() argument 2 is longer than argument 1")
      end
  | tracks :: rest =>
      r <- next_target t ;;
      match r with
      | None => raise (ValueError "zip() argument 2 is shorter than argument 1")
      | Some (playlist, t') =>
          reset_playlist playlist ;;
          write_playlist playlist tracks ;;
          zip_loop rest t'
      end
  end.

(** [getattr(self, '_PlaylistSplitter__split_by_' + self.__split_type)(origin_tracks)] *)
Definition classify (mode : mode_value) (pools : list (list string))
    (origin_tracks : list Track) : M (list (list string)) :=
  name <- method_name mode ;;
  classifier <- getattr name ;;
  call_attribute classifier pools origin_tracks.

Definition do_split (fuel : nat) (origin : string) (mode : mode_value)
    (pools : list (list string)) (t : targets) : M unit :=
  items <- get_all_playlist_items fuel origin ;;
  let origin_tracks := map item_track items in
  track_pools <- classify mode pools origin_tracks ;;
  zip_loop track_pools t.

(** [len(self.__target_playlists)] *)
Definition targets_len (t : targets) : M nat :=
  match t with
  | TargetList l => ret (length l)
  | TargetGen _ => raise (TypeError "object of type 'generator' has no len()")
  end.

(** [not self.__target_playlists] *)
Definition targets_falsy (t : option targets) : bool :=
  match t with
  | None => true
  | Some (TargetList []) => true
  | Some _ => false
  end.

(** [if not self.__target_playlists: self.__target_playlists = (... for _ in
    range(len(self.__split_pools)))] *)
Definition materialize (t : option targets) (pools : list (list string))
    : targets :=
  match t with
  | Some t' => if targets_falsy t then TargetGen (length pools) else t'
  | None => TargetGen (length pools)
  end.

(** Keyword arguments of [split] are merged into the object first. *)
Definition merge (self : Splitter)
    (by_arg : option (mode_value * list (list string)))
    (playlist_arg : option string) (into_arg : option (list string)) : Splitter :=
  let self := match by_arg with Some (m, l) => by_ self m l | None => self end in
  let self := match playlist_arg with Some p => playlist self p | None => self end in
  match into_arg with Some l => into self l | None => self end.

Definition split (self : Splitter)
    (by_arg : option (mode_value * list (list string)))
    (playlist_arg : option string) (into_arg : option (list string))
    (fuel : nat) : M unit :=
  let self := merge self by_arg playlist_arg into_arg in
  match origin_playlist self, split_type self, split_pools self with
  | Some origin, Some mode, Some pools =>
      bad <- match target_playlists self with
             | None => ret false
             | Some t =>
                 n <- targets_len t ;;
                 ret (bool_decide (length pools ≠ n)
                      && bool_decide (length pools + 1 ≠ n))
             end ;;
      if bad : bool then raise BucketCountMismatch
      else
        do_split fuel origin mode pools
          (materialize (target_playlists self) pools)
  | _, _, _ => raise ConfigurationError
  end.

(** ** Credentials and login *)

(** [playlist_splitter_defs.AUTHORIZATION_SCOPES] *)
Definition AUTHORIZATION_SCOPES : string :=
  "playlist-modify-private playlist-read-private playlist-modify-public".

(** The dataclass [SpotifyCredentials]; a field holds a [str] or [None]
    ([os.getenv] returns [None] for an unset variable). *)
Record SpotifyCredentials := mkCredentials {
  client_id : option string;
  client_secret : option string;
  redirect_uri : option string
}.

(** A [dict] with string keys whose values are strings or [None]. *)
Abbreviation pydict := (gmap string (option string)).

(** [SpotifyCredentials] called with the unpacked dict as keyword
    arguments: the generated [__init__] takes exactly the three fields, all
    required. *)
Definition SpotifyCredentials_init (kwargs : pydict) : outcome SpotifyCredentials :=
  if decide (dom kwargs ⊆ ({["client_id"; "client_secret"; "redirect_uri"]} : gset string))
  then
    match kwargs !! "client_id", kwargs !! "client_secret", kwargs !! "redirect_uri" with
    | Some a, Some b, Some c => Ok (mkCredentials a b c)
    | _, _, _ =>
        Raise (TypeError "SpotifyCredentials.__init__() missing required positional arguments")
    end
  else
    Raise (TypeError "SpotifyCredentials.__init__() got an unexpected keyword argument").

(** [spotipy.Spotify(auth_manager=SpotifyOAuth(client_id=..., client_secret=...,
    redirect_uri=..., scope=...))]: the client records what it was built
    from. *)
Record Client := mkClient {
  oauth_client_id : option string;
  oauth_client_secret : option string;
  oauth_redirect_uri : option string;
  oauth_scope : string
}.

(** [self.client] and [self.credentials]. *)
Record Auth := mkAuth {
  client : option Client;
  credentials : option SpotifyCredentials
}.

(** The [login] argument of [__init__]: a [spotipy.Spotify] client, a
    [dict], or anything else ([None] included). *)
Inductive login_arg :=
| LoginClient (cl : Client)
| LoginDict (d : pydict)
| LoginOther.

(** [__init__], the part that sets [client] and [credentials]; the four
    split fields start as in [init]. *)
Definition init_auth (login : login_arg) : outcome Auth :=
  match login with
  | LoginClient cl => Ok (mkAuth (Some cl) None)
  | LoginDict d =>
      match SpotifyCredentials_init d with
      | Ok cr => Ok (mkAuth None (Some cr))
      | Raise e => Raise e
      | OutOfFuel => OutOfFuel
      end
  | LoginOther => Ok (mkAuth None None)
  end.

(** [__get_credentials_from_env]; [env] is the process environment. *)
Definition get_credentials_from_env (env : gmap string string) (self : Auth) : Auth :=
  let client_id := env !! "SPOTIFY_CLIENT_ID" in
  let client_secret := env !! "SPOTIFY_CLIENT_SECRET" in
  let redirect_uri := env !! "SPOTIFY_REDIRECT_URI" in
  mkAuth (client self) (Some (mkCredentials client_id client_secret redirect_uri)).

(** [asdict(credentials).values()] *)
Definition credential_values (cr : SpotifyCredentials) : list (option string) :=
  [client_id cr; client_secret cr; redirect_uri cr].

Definition is_None {A} (x : option A) : bool :=
  match x with None => true | Some _ => false end.

Definition credentials_not_found : exn :=
  ValueError "Credentials not found, make sure to pass them on instantiation or provide them in environment variables".

(** [__spotify_login]; the state is returned together with the outcome
    because the object keeps its fields when the method raises. *)
Definition spotify_login (self : Auth) : outcome unit * Auth :=
  match credentials self with
  | None => (Raise (TypeError "asdict() should be called on dataclass instances"), self)
  | Some cr =>
      if existsb is_None (credential_values cr)
      then (Raise credentials_not_found, self)
      else (Ok tt,
            mkAuth (Some (mkClient (client_id cr) (client_secret cr)
                            (redirect_uri cr) AUTHORIZATION_SCOPES))
                   (credentials self))
  end.

(** Truthiness of the [credentials] argument of [login]: [None] and the
    empty dict are falsy. *)
Definition dict_truthy (d : option pydict) : bool :=
  match d with
  | None => false
  | Some d => negb (bool_decide (d = ∅))
  end.

(** [login(credentials=None)].  An instance of the dataclass is always
    truthy, so [not self.credentials] holds only for [None]. *)
Definition login (env : gmap string string) (credentials_arg : option pydict)
    (self : Auth) : outcome unit * Auth :=
  let step1 : outcome unit * Auth :=
    match credentials_arg with
    | Some d =>
        if dict_truthy credentials_arg then
          match SpotifyCredentials_init d with
          | Ok cr => (Ok tt, mkAuth (client self) (Some cr))
          | Raise e => (Raise e, self)
          | OutOfFuel => (OutOfFuel, self)
          end
        else (Ok tt, self)
    | None => (Ok tt, self)
    end in
  match step1 with
  | (Ok _, self) =>
      let self := if is_None (credentials self)
                  then get_credentials_from_env env self else self in
      spotify_login self
  | (Raise e, self) => (Raise e, self)
  | (OutOfFuel, self) => (OutOfFuel, self)
  end.

(** [__enter__]: [self.login()], then the object itself is returned. *)
Definition enter (env : gmap string string) (self : Auth) : outcome unit * Auth :=
  login env None self.

(** * Specification-level definitions

    Notions used to state the properties: the first-match rule in the
    words of the specification, the shape of the classifier's result, the
    calls expected from the catalog, and a worked example. *)

(** [first_pool_spec P pools i]: [i] is the index of the first pool that
    satisfies [P], or the overflow index [length pools] when none does. *)
Definition first_pool_spec (P : list string → Prop)
    (pools : list (list string)) (i : nat) : Prop :=
  (∃ pool, pools !! i = Some pool ∧ P pool ∧
           ∀ j pool', j < i → pools !! j = Some pool' → ¬ P pool')
  ∨ (i = length pools ∧ ∀ pool, pool ∈ pools → ¬ P pool).

(** The track's artist ids and the pool have an id in common. *)
Definition shares_artist (track : Track) (pool : list string) : Prop :=
  ∃ a, a ∈ track_artists track ∧ a ∈ pool.

(** Index computed by a scan with a boolean test. *)
Fixpoint first_match (test : list string → bool)
    (pools : list (list string)) : nat :=
  match pools with
  | [] => 0
  | pool :: rest => if test pool then 0 else S (first_match test rest)
  end.

(** Append the key of every element to the bucket of its class. *)
Definition distribute {A : Type} (key : A → string) (cls : A → nat)
    (track_pools : list (list string)) (l : list A) : list (list string) :=
  foldl (λ tp t, alter (λ b, b ++ [key t]) (cls t) tp) track_pools l.

Definition artist_class (pools : list (list string)) (track : Track) : nat :=
  first_match (artists_intersect (slim_artists (slim track))) pools.

Definition label_class (pools : list (list string)) (label : string) : nat :=
  first_match (label_in label) pools.

(** Class of a track in label mode, given the labels of the catalog. *)
Definition track_label_class (c : Catalog) (pools : list (list string))
    (track : Track) : nat :=
  match cat_albums c !! track_album track with
  | Some label => label_class pools label
  | None => length pools
  end.

(** [k] is the ceiling of [n / b]: the least [k] with [n ≤ b * k]. *)
Definition is_ceil_div (n b k : nat) : Prop :=
  (n ≤ b * k)%nat ∧ ∀ k', (n ≤ b * k')%nat → (k ≤ k')%nat.

Definition reset_calls (p : string) : list Call :=
  [CReplaceItems p [placeholder]; CRemoveAllOccurrences p [placeholder]].

(** [page_chain cursors page rest]: following the cursors from [page], the
    catalog serves the pages [rest] in order, and the cursor of the last
    page signals completion. *)
Fixpoint page_chain (cursors : gmap string Page) (page : Page)
    (rest : list Page) : Prop :=
  match rest with
  | [] => truthy (page_next page) = false
  | q :: rest' =>
      ∃ url, page_next page = Some url ∧ truthy (Some url) = true ∧
             cursors !! url = Some q ∧ page_chain cursors q rest'
  end.

(** The page requests made along [page :: rest]: one per cursor followed. *)
Fixpoint next_calls (page : Page) (rest : list Page) : list Call :=
  match rest, page_next page with
  | q :: rest', Some url => CNext url :: next_calls q rest'
  | _, _ => []
  end.

Definition no_attribute : exn :=
  AttributeError "'PlaylistSplitter' object has no attribute".
Definition not_a_str : exn :=
  TypeError "can only concatenate str (not 'SplitTypes') to str".

(** Calls made for one (bucket, destination) pair: [reset_playlist], then
    [write_playlist], which clears once more before appending. *)
Definition pair_calls (p : string) (tracks : list string) : list Call :=
  reset_calls p ++ (reset_calls p ++ map (CAddItems p) (chunk_track_list tracks)).

Definition zip_shorter : exn :=
  ValueError "zip() argument 2 is shorter than argument 1".
Definition zip_longer : exn :=
  ValueError "zip() argument 2 is longer than argument 1".

(** Contents after writing the buckets to the paired destinations. *)
Definition written (contents : gmap string (list string))
    (pairs : list (list string * string)) : gmap string (list string) :=
  foldl (λ m bp, <[bp.2 := bp.1]> m) contents pairs.

(** ** A worked example

    An origin playlist of three tracks served in two pages. *)

Definition track1 : Track := mkTrack "track1" ["A"; "B"] "album1".
Definition track2 : Track := mkTrack "track2" ["C"] "album2".
Definition track3 : Track := mkTrack "track3" ["D"] "album3".

Definition page1 : Page := mkPage [mkItem track1; mkItem track2] (Some "page2").
Definition page2 : Page := mkPage [mkItem track3] None.

Definition example_catalog : Catalog :=
  mkCatalog {[ "origin" := page1 ]} {[ "page2" := page2 ]}
    (<["album1" := "Sony"]> (<["album2" := "Warp"]> {[ "album3" := "sony" ]}))
    "me" ∅ 0 [].

Definition example_pools : list (list string) := [["A"]; ["C"]].

Definition configured (pools : list (list string)) : Splitter :=
  by_ (playlist init "origin") (MStr "artist") pools.

Definition example_tracks : list Track := [track1; track2; track3].

(** Case analysis on membership in a literal list. *)
Ltac elem_cases H :=
  repeat (apply elem_of_cons in H as [->|H]); [..|by apply elem_of_nil in H].

Definition track_both : Track := mkTrack "both" ["C"; "A"] "album1".

Definition label_pools : list (list string) := [["Sony"]; ["Warp"]].

(** ** Kinds of catalog calls *)

(** Calls that only read the catalog. *)
Definition is_read (call : Call) : bool :=
  match call with
  | CPlaylist _ | CNext _ | CAlbum _ => true
  | _ => false
  end.

(** Calls made while pairing buckets with destinations: playlist creation
    and playlist modification. *)
Definition is_write (call : Call) : bool := negb (is_read call).

(** The calls that create one destination playlist. *)
Definition create_calls (user : string) : list Call :=
  [CCurrentUser; CUserPlaylistCreate user "test1"].

(** The credentials [login] would build a client from when every field is
    present. *)
Definition complete (cr : SpotifyCredentials) : Prop :=
  is_Some (client_id cr) ∧ is_Some (client_secret cr) ∧ is_Some (redirect_uri cr).

Definition client_of (cr : SpotifyCredentials) : Client :=
  mkClient (client_id cr) (client_secret cr) (redirect_uri cr) AUTHORIZATION_SCOPES.

Definition env_credentials (env : gmap string string) : SpotifyCredentials :=
  mkCredentials (env !! "SPOTIFY_CLIENT_ID") (env !! "SPOTIFY_CLIENT_SECRET")
    (env !! "SPOTIFY_REDIRECT_URI").

Definition album_not_found : exn := SpotifyException "album not found".

(** ** Further examples *)

Definition example_env : gmap string string :=
  <["SPOTIFY_CLIENT_ID" := "id"]>
    (<["SPOTIFY_CLIENT_SECRET" := "secret"]> {[ "SPOTIFY_REDIRECT_URI" := "uri" ]}).

Definition example_dict : pydict :=
  <["client_id" := Some "id2"]>
    (<["client_secret" := Some "secret2"]> {[ "redirect_uri" := Some "uri2" ]}).

Definition incomplete_credentials : SpotifyCredentials :=
  mkCredentials None (Some "secret") (Some "uri").

Definition given_client : Client :=
  mkClient (Some "other") (Some "other") (Some "other") "playlist-read-private".

Definition page_loop : Page := mkPage [mkItem track1] (Some "loop").

Definition looping_catalog : Catalog :=
  mkCatalog {[ "origin" := page_loop ]} {[ "loop" := page_loop ]} ∅ "me" ∅ 0 [].

(** The example catalog without the label of [album3]. *)
Definition catalog_missing_album : Catalog :=
  mkCatalog {[ "origin" := page1 ]} {[ "page2" := page2 ]}
    (<["album1" := "Sony"]> {[ "album2" := "Warp" ]})
    "me" ∅ 0 [].

Definition example_items : list Item := [mkItem track1; mkItem track2; mkItem track3].

Definition fetched_catalog : Catalog :=
  add_calls example_catalog [CPlaylist "origin"; CNext "page2"].

Definition track_no_artist : Track := mkTrack "silent" [] "album1".

(** * Properties *)

(** ** First-match classification *)

Section first_match.
Context (test : list string → bool) (P : list string → Prop).
Hypothesis test_spec : ∀ pool, test pool = true ↔ P pool.

Lemma first_match_le pools : (first_match test pools ≤ length pools)%nat.
Proof. induction pools as [|p r IH]; simpl; [lia|]. destruct (test p); lia. Qed.

Lemma first_match_sound pools :
  first_pool_spec P pools (first_match test pools).
Proof.
  induction pools as [|p r IH]; simpl.
  - right. split; [done|]. intros pool Hin. by apply elem_of_nil in Hin.
  - destruct (test p) eqn:Hp.
    + left. exists p. split; [done|]. split; [by apply test_spec|].
      intros j pool' Hj. lia.
    + assert (¬ P p) as Hnp by (rewrite <- test_spec; congruence).
      destruct IH as [(pool & Hl & HP & Hbefore) | [Heq Hnone]].
      * left. exists pool. split; [done|]. split; [done|].
        intros [|j] pool' Hj Hl'; simpl in Hl'.
        -- by injection Hl' as <-.
        -- apply (Hbefore j); [lia|done].
      * right. split; [simpl; lia|].
        intros pool [->|Hin]%elem_of_cons; [done|by apply Hnone].
Qed.

Lemma first_pool_spec_unique pools i j :
  first_pool_spec P pools i → first_pool_spec P pools j → i = j.
Proof.
  intros [(pi & Hi & HPi & Hbi) | [-> Hni]] [(pj & Hj & HPj & Hbj) | [-> Hnj]].
  - destruct (Nat.lt_trichotomy i j) as [Hlt | [-> | Hlt]]; [|done|].
    + exfalso. by apply (Hbj i pi).
    + exfalso. by apply (Hbi j pj).
  - exfalso. apply (Hnj pi); [|done]. by eapply list_elem_of_lookup_2.
  - exfalso. apply (Hni pj); [|done]. by eapply list_elem_of_lookup_2.
  - done.
Qed.

Lemma first_match_iff pools i :
  first_match test pools = i ↔ first_pool_spec P pools i.
Proof.
  split.
  - intros <-. apply first_match_sound.
  - intros Hi. eapply first_pool_spec_unique; [apply first_match_sound|done].
Qed.
End first_match.

Lemma artists_intersect_spec (track : Track) (pool : list string) :
  artists_intersect (slim_artists (slim track)) pool = true
  ↔ shares_artist track pool.
Proof.
  unfold artists_intersect, shares_artist, slim; simpl.
  rewrite bool_decide_eq_true. split.
  - intros Hne. apply set_choose_L in Hne as [a Ha].
    exists a. set_solver.
  - intros (a & Ha & Hp). set_solver.
Qed.

Lemma label_in_spec (label : string) (pool : list string) :
  label_in label pool = true ↔ label ∈ pool.
Proof. unfold label_in. apply bool_decide_eq_true. Qed.

(** ** Distributing elements over buckets *)

Section distribute.
Context {A : Type} (key : A → string) (cls : A → nat).

Lemma distribute_cons tp t l :
  distribute key cls tp (t :: l)
  = distribute key cls (alter (λ b, b ++ [key t]) (cls t) tp) l.
Proof. done. Qed.

Lemma distribute_length tp l : length (distribute key cls tp l) = length tp.
Proof.
  revert tp. induction l as [|t l IH]; intros tp; [done|].
  by rewrite distribute_cons, IH, length_alter.
Qed.

Lemma distribute_lookup tp l i :
  distribute key cls tp l !! i
  = (λ b, b ++ map key (filter (λ t, cls t = i) l)) <$> tp !! i.
Proof.
  revert tp. induction l as [|t l IH]; intros tp.
  - simpl. destruct (tp !! i); simpl; [|done]. by rewrite app_nil_r.
  - rewrite distribute_cons, IH.
    rewrite filter_cons. destruct (decide (cls t = i)) as [<-|Hne].
    + rewrite list_lookup_alter_eq. destruct (tp !! cls t) as [b|]; simpl.
      * by rewrite <- app_assoc.
      * done.
    + by rewrite list_lookup_alter_ne.
Qed.

Lemma concat_alter_snoc (tp : list (list string)) i x :
  i < length tp → concat (alter (λ b, b ++ [x]) i tp) ≡ₚ x :: concat tp.
Proof.
  revert i. induction tp as [|b tp IH]; intros i Hi; simpl in *; [lia|].
  destruct i as [|i]; simpl.
  - rewrite <- app_assoc. simpl.
    by rewrite <- Permutation_middle.
  - change (list_alter ?f i tp) with (alter f i tp).
    rewrite IH by lia. by rewrite Permutation_middle.
Qed.

Lemma distribute_concat tp l :
  (∀ t, cls t < length tp) →
  concat (distribute key cls tp l) ≡ₚ concat tp ++ map key l.
Proof.
  revert tp. induction l as [|t l IH]; intros tp Hc.
  - simpl. by rewrite app_nil_r.
  - rewrite distribute_cons, IH.
    + rewrite concat_alter_snoc by done. simpl. apply Permutation_middle.
    + intros t'. by rewrite length_alter.
Qed.
End distribute.

Lemma concat_replicate_nil {A} n : concat (replicate n ([] : list A)) = [].
Proof. induction n; simpl; auto. Qed.

Lemma distribute_map {A B} (f : A → B) (key : B → string) (cls : B → nat) tp l :
  distribute key cls tp (map f l) = distribute (key ∘ f) (cls ∘ f) tp l.
Proof. revert tp. induction l as [|t l IH]; intros tp; simpl; [done|apply IH]. Qed.

Lemma elem_of_concat {A} (x : A) (ls : list (list A)) :
  x ∈ concat ls ↔ ∃ l, x ∈ l ∧ l ∈ ls.
Proof.
  induction ls as [|l ls IH]; simpl.
  - split; [by intros ?%elem_of_nil|]. by intros (l & _ & ?%elem_of_nil).
  - rewrite elem_of_app, IH. split.
    + intros [Hx | (l' & Hx & Hl')].
      * exists l. split; [done|apply list_elem_of_here].
      * exists l'. split; [done|by apply list_elem_of_further].
    + intros (l' & Hx & [->|Hl']%elem_of_cons); [by left|].
      right. by exists l'.
Qed.

Lemma NoDup_concat_lookup {A} (ls : list (list A)) i j a b x :
  NoDup (concat ls) → ls !! i = Some a → ls !! j = Some b →
  x ∈ a → x ∈ b → i = j.
Proof.
  revert i j. induction ls as [|l ls IH]; intros i j Hnd Hi Hj Ha Hb; [done|].
  simpl in Hnd. apply NoDup_app in Hnd as (Hl & Hdisj & Hrest).
  destruct i as [|i], j as [|j]; simpl in *; simplify_eq.
  - done.
  - exfalso. apply (Hdisj x Ha). apply elem_of_concat.
    exists b. split; [done|]. by eapply list_elem_of_lookup_2.
  - exfalso. apply (Hdisj x Hb). apply elem_of_concat.
    exists a. split; [done|]. by eapply list_elem_of_lookup_2.
  - f_equal. by apply IH.
Qed.

(** What it means for [buckets] to be the stable partition of the keys of
    [l] by the class function [cls] into [n + 1] buckets. *)
Section stable_partition.
Context {A : Type} (key : A → string) (cls : A → nat) (n : nat).
Hypothesis cls_le : ∀ t, (cls t ≤ n)%nat.

Lemma buckets_length l : length (distribute key cls (replicate (n + 1) []) l) = n + 1.
Proof. by rewrite distribute_length, length_replicate. Qed.

Lemma buckets_lookup l i :
  (i ≤ n)%nat →
  distribute key cls (replicate (n + 1) []) l !! i = Some (map key (filter (λ t, cls t = i) l)).
Proof.
  intros Hi. rewrite distribute_lookup.
  rewrite lookup_replicate_2 by lia. done.
Qed.

Lemma buckets_perm l : concat (distribute key cls (replicate (n + 1) []) l) ≡ₚ map key l.
Proof.
  rewrite distribute_concat.
  - by rewrite concat_replicate_nil.
  - intros t. rewrite length_replicate. specialize (cls_le t). lia.
Qed.

Lemma buckets_sublist l :
  Forall (λ b, b `sublist_of` map key l) (distribute key cls (replicate (n + 1) []) l).
Proof.
  apply Forall_lookup. intros i b Hb.
  assert (i < n + 1) as Hi.
  { rewrite <- (buckets_length l). by eapply lookup_lt_Some. }
  rewrite buckets_lookup in Hb by lia. injection Hb as <-.
  apply (fmap_sublist key), sublist_filter.
Qed.

Lemma buckets_unique l x :
  NoDup (map key l) → x ∈ map key l →
  ∃ i, (∃ b, distribute key cls (replicate (n + 1) []) l !! i = Some b ∧ x ∈ b) ∧
       ∀ j, (∃ b, distribute key cls (replicate (n + 1) []) l !! j = Some b ∧ x ∈ b) → j = i.
Proof.
  intros Hnd Hx.
  rewrite <- buckets_perm in Hx, Hnd.
  apply elem_of_concat in Hx as (b & Hxb & Hb).
  apply list_elem_of_lookup_1 in Hb as [i Hi].
  exists i. split; [by exists b|].
  intros j (b' & Hj & Hxb'). by eapply NoDup_concat_lookup.
Qed.
End stable_partition.

(** ** Running the classifiers *)

Lemma append_at_run idx x tp c :
  idx < length tp →
  append_at idx x tp c = (Ok (alter (λ b, b ++ [x]) idx tp), c).
Proof. intros Hi. unfold append_at. by rewrite decide_True. Qed.

Lemma append_last_run x tp c :
  0 < length tp →
  append_last x tp c = (Ok (alter (λ b, b ++ [x]) (length tp - 1) tp), c).
Proof.
  intros Hi. destruct tp as [|b tp]; [simpl in Hi; lia|].
  unfold append_last. apply append_at_run. simpl. lia.
Qed.

Lemma artist_scan_run track k pools tp c :
  length tp = k + length pools + 1 →
  artist_scan track (enumerate_from k pools) tp c
  = (Ok (alter (λ b, b ++ [slim_id track])
           (k + first_match (artists_intersect (slim_artists track)) pools) tp), c).
Proof.
  revert k. induction pools as [|p r IH]; intros k Hlen; simpl in *.
  - rewrite append_last_run by lia. do 3 f_equal. lia.
  - destruct (artists_intersect (slim_artists track) p).
    + rewrite append_at_run by lia. do 3 f_equal. lia.
    + rewrite IH by lia. do 3 f_equal. lia.
Qed.

Lemma label_scan_run tid label k pools tp c :
  length tp = k + length pools + 1 →
  label_scan tid label (enumerate_from k pools) tp c
  = (Ok (alter (λ b, b ++ [tid]) (k + label_class pools label) tp), c).
Proof.
  unfold label_class. revert k. induction pools as [|p r IH]; intros k Hlen; simpl in *.
  - rewrite append_last_run by lia. do 3 f_equal. lia.
  - destruct (label_in label p).
    + rewrite append_at_run by lia. do 3 f_equal. lia.
    + rewrite IH by lia. do 3 f_equal. lia.
Qed.

Lemma artist_loop_run pools slimmed tp c :
  length tp = length pools + 1 →
  artist_loop pools slimmed tp c
  = (Ok (distribute slim_id
           (λ t, first_match (artists_intersect (slim_artists t)) pools)
           tp slimmed), c).
Proof.
  revert tp. induction slimmed as [|t l IH]; intros tp Hlen; simpl; [done|].
  unfold bind, enumerate. rewrite artist_scan_run by (simpl; lia). simpl.
  apply IH. by rewrite length_alter.
Qed.

Lemma fresh_track_pools_length pools :
  length (fresh_track_pools pools) = length pools + 1.
Proof. apply length_replicate. Qed.

Lemma split_by_artist_run pools tracks c :
  split_by_artist pools tracks c
  = (Ok (distribute track_id (artist_class pools)
           (replicate (length pools + 1) []) tracks), c).
Proof.
  unfold split_by_artist.
  rewrite artist_loop_run by apply fresh_track_pools_length.
  by rewrite distribute_map.
Qed.

Lemma artist_class_le pools track : (artist_class pools track ≤ length pools)%nat.
Proof. apply first_match_le. Qed.

Lemma artist_class_spec pools track i :
  artist_class pools track = i ↔ first_pool_spec (shares_artist track) pools i.
Proof. apply first_match_iff. intros pool. apply artists_intersect_spec. Qed.

Lemma artist_class_artists pools t1 t2 :
  track_artists t1 = track_artists t2 →
  artist_class pools t1 = artist_class pools t2.
Proof. unfold artist_class, slim; simpl. by intros ->. Qed.

Lemma elem_of_bucket {A} (key : A → string) (cls : A → nat) l i x :
  x ∈ map key (filter (λ t, cls t = i) l) ↔ ∃ t, t ∈ l ∧ key t = x ∧ cls t = i.
Proof.
  change (map key ?l) with (key <$> l). rewrite list_elem_of_fmap.
  split.
  - intros (t & -> & [Hc Hin]%list_elem_of_filter). by exists t.
  - intros (t & Hin & <- & Hc). exists t. split; [done|].
    by apply list_elem_of_filter.
Qed.

(** ** Artist mode *)

(** C1. Artist-mode classification returns [length pools + 1] buckets that
    form a stable partition of the input: some class function sends every
    track to one bucket, bucket [i] is the list of ids of the tracks of class
    [i] in input order, the buckets together hold each id as often as the
    input does, each bucket is a subsequence of the input ids, and (ids
    determining their artists) every input id occurs in exactly one bucket. *)
Theorem split_by_artist_stable_partition
    (pools : list (list string)) (tracks : list Track) (c : Catalog) :
  ∃ buckets,
    split_by_artist pools tracks c = (Ok buckets, c) ∧
    length buckets = length pools + 1 ∧
    (∃ cls : Track → nat,
       ∀ i, (i ≤ length pools)%nat →
         buckets !! i = Some (map track_id (filter (λ t, cls t = i) tracks))) ∧
    concat buckets ≡ₚ map track_id tracks ∧
    Forall (λ b, b `sublist_of` map track_id tracks) buckets ∧
    ((∀ t1 t2, t1 ∈ tracks → t2 ∈ tracks → track_id t1 = track_id t2 →
               track_artists t1 = track_artists t2) →
     ∀ x, x ∈ map track_id tracks →
       ∃ i, (∃ b, buckets !! i = Some b ∧ x ∈ b) ∧
            ∀ j b, buckets !! j = Some b → x ∈ b → j = i).
Proof.
  eexists. split; [apply split_by_artist_run|].
  pose proof (artist_class_le pools) as Hle.
  split; [by apply buckets_length|].
  split; [exists (artist_class pools); intros i Hi; by apply buckets_lookup|].
  split; [by apply buckets_perm|].
  split; [by apply buckets_sublist|].
  intros Hfun x Hx.
  rewrite <- (buckets_perm track_id (artist_class pools) (length pools) Hle) in Hx.
  apply elem_of_concat in Hx as (b & Hxb & Hb).
  apply list_elem_of_lookup_1 in Hb as [i Hi].
  exists i. split; [by exists b|].
  intros j b' Hj Hxb'.
  assert (∀ k bk, distribute track_id (artist_class pools)
                    (replicate (length pools + 1) []) tracks !! k = Some bk →
                  x ∈ bk →
                  ∃ t, t ∈ tracks ∧ track_id t = x ∧ artist_class pools t = k)
    as Hin.
  { intros k bk Hk Hxk.
    assert (k < length pools + 1) as Hlt.
    { rewrite <- (buckets_length track_id (artist_class pools) (length pools) tracks).
      by eapply lookup_lt_Some. }
    rewrite (buckets_lookup track_id (artist_class pools) (length pools))
      in Hk by lia.
    injection Hk as <-. by apply elem_of_bucket in Hxk. }
  destruct (Hin i b Hi Hxb) as (t1 & Ht1 & Hid1 & <-).
  destruct (Hin j b' Hj Hxb') as (t2 & Ht2 & Hid2 & <-).
  apply artist_class_artists, Hfun; congruence.
Qed.

(** C2. In artist mode the bucket of a track is the index of the first pool
    sharing an artist id with it, and the overflow index [length pools]
    exactly when no pool shares one; in particular a track matching pools 0
    and 1 goes to bucket 0. *)
Theorem split_by_artist_first_match
    (pools : list (list string)) (tracks : list Track) (c : Catalog) :
  ∃ (cls : Track → nat) buckets,
    split_by_artist pools tracks c = (Ok buckets, c) ∧
    (∀ i, (i ≤ length pools)%nat →
       buckets !! i = Some (map track_id (filter (λ t, cls t = i) tracks))) ∧
    (∀ t i, cls t = i ↔ first_pool_spec (shares_artist t) pools i) ∧
    (∀ t p0 p1 rest, pools = p0 :: p1 :: rest →
       shares_artist t p0 → shares_artist t p1 → cls t = 0 ∧ cls t ≠ 1) ∧
    (∀ t, cls t = length pools ↔ ∀ pool, pool ∈ pools → ¬ shares_artist t pool).
Proof.
  exists (artist_class pools). eexists.
  split; [apply split_by_artist_run|].
  split.
  { intros i Hi. by apply buckets_lookup. }
  split; [apply artist_class_spec|].
  split.
  - intros t p0 p1 rest -> H0 H1.
    assert (artist_class (p0 :: p1 :: rest) t = 0) as ->; [|done].
    apply artist_class_spec. left. exists p0.
    split; [done|]. split; [done|]. intros j pool' Hj. lia.
  - intros t. rewrite artist_class_spec. split.
    + intros [(pool & Hl & _) | [_ Hnone]]; [|done].
      apply lookup_lt_Some in Hl. lia.
    + intros Hnone. by right.
Qed.

(** ** Catalog bookkeeping *)

Lemma upd_upd c m1 l1 m2 l2 : upd (upd c m1 l1) m2 l2 = upd c m2 (l1 ++ l2).
Proof. unfold upd; simpl. by rewrite app_assoc. Qed.

Lemma upd_id c : upd c (cat_contents c) [] = c.
Proof. destruct c. unfold upd; simpl. by rewrite app_nil_r. Qed.

Lemma add_calls_add_calls c l1 l2 :
  add_calls (add_calls c l1) l2 = add_calls c (l1 ++ l2).
Proof. apply upd_upd. Qed.

Lemma add_calls_nil c : add_calls c [] = c.
Proof. apply upd_id. Qed.

Lemma client_album_label_run album label c :
  cat_albums c !! album = Some label →
  client_album_label album c = (Ok label, add_calls c [CAlbum album]).
Proof. intros H. unfold client_album_label, bind, log; simpl. by rewrite H. Qed.

(** ** Label mode *)

Lemma track_label_class_le c pools track :
  (track_label_class c pools track ≤ length pools)%nat.
Proof.
  unfold track_label_class. destruct (cat_albums c !! track_album track); [|done].
  apply first_match_le.
Qed.

Lemma label_loop_run pools tracks tp c :
  length tp = length pools + 1 →
  (∀ t, t ∈ tracks → is_Some (cat_albums c !! track_album t)) →
  label_loop pools tracks tp c
  = (Ok (distribute track_id (track_label_class c pools) tp tracks),
     add_calls c (map (λ t, CAlbum (track_album t)) tracks)).
Proof.
  revert tp c. induction tracks as [|t l IH]; intros tp c Hlen Hall; simpl.
  - by rewrite add_calls_nil.
  - destruct (Hall t) as [label Hlabel]; [apply list_elem_of_here|].
    unfold bind. rewrite (client_album_label_run _ label) by done.
    unfold enumerate. rewrite label_scan_run by (simpl; lia). simpl.
    rewrite IH.
    + rewrite add_calls_add_calls. unfold distribute at 2. simpl.
      assert (track_label_class c pools t = label_class pools label) as ->.
      { unfold track_label_class. by rewrite Hlabel. }
      done.
    + by rewrite length_alter.
    + intros t' Hin. simpl. apply Hall. by apply list_elem_of_further.
Qed.

Lemma filter_two_in_order {A} (P : A → Prop) `{!∀ x, Decision (P x)}
    (f : A → string) l1 t1 l2 t2 l3 :
  P t1 → P t2 →
  map f (filter P (l1 ++ t1 :: l2 ++ t2 :: l3))
  = map f (filter P l1) ++ f t1 :: map f (filter P l2) ++ f t2 :: map f (filter P l3).
Proof.
  intros H1 H2.
  rewrite filter_app, filter_cons_True, filter_app, filter_cons_True by done.
  by rewrite map_app, map_cons, map_app, map_cons.
Qed.

(** C7. In label mode each track's label is looked up through its album
    (one lookup per track), its bucket is the index of the first pool that
    contains exactly that string, or the overflow index when none does; the
    buckets are a stable partition, and two tracks with the same resolved
    label land in one bucket in their original relative order. *)
Theorem split_by_label_first_match
    (pools : list (list string)) (tracks : list Track) (c : Catalog) :
  (∀ t, t ∈ tracks → is_Some (cat_albums c !! track_album t)) →
  ∃ (cls : Track → nat) buckets,
    split_by_label pools tracks c
    = (Ok buckets, add_calls c (map (λ t, CAlbum (track_album t)) tracks)) ∧
    length buckets = length pools + 1 ∧
    (∀ i, (i ≤ length pools)%nat →
       buckets !! i = Some (map track_id (filter (λ t, cls t = i) tracks))) ∧
    (∀ t label i, cat_albums c !! track_album t = Some label →
       cls t = i ↔ first_pool_spec (λ pool, label ∈ pool) pools i) ∧
    concat buckets ≡ₚ map track_id tracks ∧
    Forall (λ b, b `sublist_of` map track_id tracks) buckets ∧
    (∀ l1 t1 l2 t2 l3,
       tracks = l1 ++ t1 :: l2 ++ t2 :: l3 →
       cat_albums c !! track_album t1 = cat_albums c !! track_album t2 →
       cls t1 = cls t2 ∧
       ∃ b1 b2 b3,
         buckets !! cls t1
         = Some (b1 ++ track_id t1 :: b2 ++ track_id t2 :: b3)).
Proof.
  intros Hall. exists (track_label_class c pools). eexists.
  split.
  { unfold split_by_label. apply label_loop_run; [|done].
    apply fresh_track_pools_length. }
  pose proof (track_label_class_le c pools) as Hle.
  unfold fresh_track_pools.
  split; [by apply buckets_length|].
  split; [intros i Hi; by apply buckets_lookup|].
  split.
  { intros t label i Hlabel. unfold track_label_class. rewrite Hlabel.
    apply first_match_iff. intros pool. apply label_in_spec. }
  split; [by apply buckets_perm|].
  split; [by apply buckets_sublist|].
  intros l1 t1 l2 t2 l3 -> Hsame.
  assert (track_label_class c pools t1 = track_label_class c pools t2) as Heq.
  { unfold track_label_class. by rewrite Hsame. }
  split; [done|].
  rewrite buckets_lookup by apply Hle.
  rewrite filter_two_in_order by done.
  by eexists _, _, _.
Qed.

(** ** Chunked write *)

Lemma range_loop_chunks_concat {A} (l : list A) fuel i :
  length l ≤ fuel + i →
  concat (map (λ j, slice l j (j + 50)) (range_loop fuel i (length l) 50))
  = drop i l.
Proof.
  revert i. induction fuel as [|fuel IH]; intros i Hfuel; simpl.
  - by rewrite drop_ge by lia.
  - destruct (decide (i < length l)) as [Hlt|Hge]; simpl.
    + rewrite IH by lia. unfold slice.
      replace (i + 50 - i) with 50 by lia.
      rewrite <- (drop_drop l 50 i). apply take_drop.
    + by rewrite drop_ge by lia.
Qed.

Lemma range_loop_length fuel i stop :
  stop ≤ fuel + i →
  length (range_loop fuel i stop 50) = (stop - i + 49) `div` 50.
Proof.
  revert i. induction fuel as [|fuel IH]; intros i Hfuel; cbn [range_loop].
  - replace (stop - i) with 0 by lia. done.
  - destruct (decide (i < stop)) as [Hlt|Hge]; cbn [length].
    + rewrite IH by lia.
      destruct (decide (stop - i < 50)) as [Hsmall|Hbig].
      * replace (stop - (i + 50)) with 0 by lia.
        change ((0 + 49) `div` 50) with 0.
        apply (Nat.div_unique _ 50 1 (stop - i - 1)); lia.
      * replace (stop - i + 49) with (stop - (i + 50) + 49 + 1 * 50) by lia.
        rewrite Nat.div_add by lia. lia.
    + replace (stop - i) with 0 by lia. done.
Qed.

Lemma chunk_track_list_concat tracks : concat (chunk_track_list tracks) = tracks.
Proof.
  unfold chunk_track_list, py_range.
  rewrite range_loop_chunks_concat by lia. apply drop_0.
Qed.

Lemma chunk_track_list_length tracks :
  length (chunk_track_list tracks) = (length tracks + 49) `div` 50.
Proof.
  unfold chunk_track_list, py_range.
  rewrite length_map, range_loop_length by lia. f_equal. lia.
Qed.

Lemma chunk_track_list_sizes tracks :
  Forall (λ chunk, (length chunk ≤ 50)%nat) (chunk_track_list tracks).
Proof.
  unfold chunk_track_list. apply Forall_forall. intros chunk Hin.
  change (map ?f ?l) with (f <$> l) in Hin.
  apply list_elem_of_fmap in Hin as (j & -> & _).
  unfold slice. rewrite length_take. lia.
Qed.

Lemma ceil_div_50 n : is_ceil_div n 50 ((n + 49) `div` 50).
Proof.
  pose proof (Nat.div_mod_eq (n + 49) 50) as Hdm.
  pose proof (Nat.mod_upper_bound (n + 49) 50) as Hlt.
  split; [lia|]. intros k' Hk'.
  assert ((n + 49) `div` 50 < S k') as Hk; [|lia].
  apply Nat.Div0.div_lt_upper_bound. lia.
Qed.

Lemma client_playlist_replace_items_run p items c :
  client_playlist_replace_items p items c
  = (Ok tt, upd c (<[p := items]> (cat_contents c)) [CReplaceItems p items]).
Proof.
  unfold client_playlist_replace_items, bind, log, set_contents, add_calls; simpl.
  by rewrite upd_upd.
Qed.

Lemma client_playlist_remove_all_run p items c :
  client_playlist_remove_all_occurrences_of_items p items c
  = (Ok tt, upd c (<[p := filter (λ x, x ∉ items)
                            (default [] (cat_contents c !! p))]> (cat_contents c))
              [CRemoveAllOccurrences p items]).
Proof.
  unfold client_playlist_remove_all_occurrences_of_items, bind, log,
    set_contents, add_calls; simpl.
  by rewrite upd_upd.
Qed.

Lemma client_playlist_add_items_run p items c :
  client_playlist_add_items p items c
  = (Ok tt, upd c (<[p := default [] (cat_contents c !! p) ++ items]> (cat_contents c))
              [CAddItems p items]).
Proof.
  unfold client_playlist_add_items, bind, log, set_contents, add_calls; simpl.
  by rewrite upd_upd.
Qed.

Lemma reset_playlist_run p c :
  reset_playlist p c
  = (Ok tt, upd c (<[p := []]> (cat_contents c)) (reset_calls p)).
Proof.
  unfold reset_playlist, bind.
  rewrite client_playlist_replace_items_run, client_playlist_remove_all_run.
  rewrite upd_upd. simpl. rewrite lookup_insert_eq, insert_insert_eq. simpl.
  rewrite filter_cons_False, filter_nil; [done|].
  intros Hn. apply Hn. apply list_elem_of_here.
Qed.

Lemma add_chunks_run p chunks old c :
  cat_contents c !! p = Some old →
  add_chunks p chunks c
  = (Ok tt, upd c (<[p := old ++ concat chunks]> (cat_contents c))
              (map (CAddItems p) chunks)).
Proof.
  revert old c. induction chunks as [|chunk rest IH]; intros old c Hold; simpl.
  - rewrite app_nil_r, insert_id by done. by rewrite upd_id.
  - unfold bind. rewrite client_playlist_add_items_run.
    rewrite (IH (old ++ chunk)).
    + rewrite upd_upd. simpl. rewrite insert_insert_eq. by rewrite app_assoc.
    + simpl. rewrite Hold. simpl. apply lookup_insert_eq.
Qed.

Lemma write_playlist_run p track_list c :
  write_playlist p track_list c
  = (Ok tt, upd c (<[p := track_list]> (cat_contents c))
              (reset_calls p ++ map (CAddItems p) (chunk_track_list track_list))).
Proof.
  unfold write_playlist, bind. rewrite reset_playlist_run.
  rewrite (add_chunks_run p _ []) by apply lookup_insert_eq.
  rewrite upd_upd. simpl. rewrite insert_insert_eq.
  by rewrite chunk_track_list_concat.
Qed.

(** C6. Writing [N] track ids issues, after the two clearing calls, exactly
    [ceil(N/50)] append calls, each with at most 50 ids, whose payloads
    concatenated in call order are the input list; for [N = 0] there is no
    append call. *)
Theorem write_playlist_chunked (p : string) (track_list : list string) (c : Catalog) :
  ∃ chunks c',
    write_playlist p track_list c = (Ok tt, c') ∧
    cat_calls c' = cat_calls c ++ reset_calls p ++ map (CAddItems p) chunks ∧
    is_ceil_div (length track_list) 50 (length chunks) ∧
    Forall (λ chunk, (length chunk ≤ 50)%nat) chunks ∧
    concat chunks = track_list ∧
    (length track_list = 0 → chunks = []).
Proof.
  exists (chunk_track_list track_list). eexists.
  split; [apply write_playlist_run|].
  split; [done|].
  split; [rewrite chunk_track_list_length; apply ceil_div_50|].
  split; [apply chunk_track_list_sizes|].
  split; [apply chunk_track_list_concat|].
  intros Hn. apply length_zero_iff_nil. rewrite chunk_track_list_length, Hn. done.
Qed.

(** C8. [reset_playlist] makes exactly two catalog calls, replace-all with
    the placeholder and remove-all-occurrences of the placeholder, and leaves
    the destination empty; [reset_playlist] followed by [write_playlist]
    leaves the destination holding exactly the written ids, whatever it held
    before, and touches no other playlist. *)
Theorem reset_then_write (p : string) (track_list : list string) (c : Catalog) :
  (∃ c1, reset_playlist p c = (Ok tt, c1) ∧
         cat_calls c1
         = cat_calls c ++ [CReplaceItems p [placeholder];
                           CRemoveAllOccurrences p [placeholder]] ∧
         cat_contents c1 !! p = Some []) ∧
  (∃ c2, (reset_playlist p ;; write_playlist p track_list) c = (Ok tt, c2) ∧
         cat_contents c2 !! p = Some track_list ∧
         ∀ q, q ≠ p → cat_contents c2 !! q = cat_contents c !! q).
Proof.
  split.
  - eexists. split; [apply reset_playlist_run|]. split; [done|].
    simpl. apply lookup_insert_eq.
  - eexists. split.
    + unfold bind. rewrite reset_playlist_run, write_playlist_run. done.
    + simpl. split.
      * apply lookup_insert_eq.
      * intros q Hq. by rewrite !lookup_insert_ne.
Qed.

(** ** Paging *)

Lemma client_next_run c page url q :
  page_next page = Some url → truthy (Some url) = true →
  cat_cursors c !! url = Some q →
  client_next page c = (Ok (Some q), add_calls c [CNext url]).
Proof.
  intros Hn Ht Hq. unfold client_next. rewrite Hn, Ht.
  unfold bind, log; simpl. by rewrite Hq.
Qed.

Lemma paging_loop_run c page rest acc fuel :
  page_chain (cat_cursors c) page rest →
  length rest ≤ fuel →
  paging_loop fuel page acc c
  = (Ok (acc ++ concat (map page_items rest)), add_calls c (next_calls page rest)).
Proof.
  revert c page acc fuel.
  induction rest as [|q rest IH]; intros c page acc fuel Hchain Hfuel.
  - cbn [page_chain] in Hchain.
    destruct fuel; cbn [paging_loop]; rewrite Hchain; simpl;
      by rewrite app_nil_r, add_calls_nil.
  - destruct Hchain as (url & Hn & Ht & Hq & Hchain).
    destruct fuel as [|fuel]; [simpl in Hfuel; lia|].
    cbn [paging_loop]. rewrite Hn, Ht. unfold bind.
    rewrite (client_next_run c page url q) by done.
    rewrite IH; [|done|simpl in Hfuel; lia].
    rewrite add_calls_add_calls. cbn [next_calls map concat]. rewrite Hn.
    by rewrite app_assoc.
Qed.

Lemma paging_loop_out_of_fuel c page rest acc fuel :
  page_chain (cat_cursors c) page rest →
  fuel < length rest →
  (paging_loop fuel page acc c).1 = OutOfFuel.
Proof.
  revert c page acc fuel.
  induction rest as [|q rest IH]; intros c page acc fuel Hchain Hfuel.
  - simpl in Hfuel. lia.
  - destruct Hchain as (url & Hn & Ht & Hq & Hchain).
    destruct fuel as [|fuel]; cbn [paging_loop]; rewrite Hn, Ht; [done|].
    unfold bind. rewrite (client_next_run c page url q) by done.
    apply IH; [done|simpl in Hfuel; lia].
Qed.

Lemma next_calls_length cursors page rest :
  page_chain cursors page rest → length (next_calls page rest) = length rest.
Proof.
  revert page. induction rest as [|q rest IH]; intros page Hchain; simpl in *.
  - done.
  - destruct Hchain as (url & -> & _ & _ & Hchain). simpl. f_equal. by apply IH.
Qed.

Lemma client_playlist_run c pid page :
  cat_playlists c !! pid = Some page →
  client_playlist pid c = (Ok page, add_calls c [CPlaylist pid]).
Proof. intros H. unfold client_playlist, bind, log; simpl. by rewrite H. Qed.

(** C9. When the catalog serves the pages [page :: rest] (the last cursor
    signalling completion), fetching all items returns the concatenation of
    the pages' items in arrival order after one playlist request and exactly
    one page request per followed cursor; the loop body runs [length rest]
    times, so zero times when the first cursor already signals completion,
    and nothing is requested after the completing cursor. *)
Theorem get_all_playlist_items_pages
    (pid : string) (page : Page) (rest : list Page) (fuel : nat) (c : Catalog) :
  cat_playlists c !! pid = Some page →
  page_chain (cat_cursors c) page rest →
  length rest ≤ fuel →
  get_all_playlist_items fuel pid c
  = (Ok (concat (map page_items (page :: rest))),
     add_calls c (CPlaylist pid :: next_calls page rest)) ∧
  length (next_calls page rest) = length rest ∧
  (∀ fuel', fuel' < length rest →
     (get_all_playlist_items fuel' pid c).1 = OutOfFuel) ∧
  (truthy (page_next page) = false →
     rest = [] ∧
     get_all_playlist_items 0 pid c
     = (Ok (page_items page), add_calls c [CPlaylist pid])).
Proof.
  intros Hpage Hchain Hfuel.
  assert (∀ f, get_all_playlist_items f pid c
               = paging_loop f page (page_items page) (add_calls c [CPlaylist pid]))
    as Hget.
  { intros f. unfold get_all_playlist_items, bind.
    by rewrite (client_playlist_run c pid page). }
  split; [|split; [|split]].
  - rewrite Hget, (paging_loop_run _ page rest) by done.
    by rewrite add_calls_add_calls.
  - by eapply next_calls_length.
  - intros fuel' Hlt. rewrite Hget. by eapply paging_loop_out_of_fuel.
  - intros Hdone.
    assert (rest = []) as ->.
    { destruct rest as [|q rest]; [done|].
      destruct Hchain as (url & Hn & Ht & _). rewrite Hn in Hdone. congruence. }
    split; [done|]. rewrite Hget. simpl. rewrite Hdone. done.
Qed.

(** ** Dispatch on the split type *)

Lemma getattr_split_by (s : string) (c : Catalog) :
  getattr ("_PlaylistSplitter__split_by_" +:+ s) c
  = if String.eqb "artist" s then (Ok AttrSplitByArtist, c)
    else if String.eqb "label" s then (Ok AttrSplitByLabel, c)
    else (Raise no_attribute, c).
Proof.
  destruct (String.eqb_spec "artist" s) as [<-|Ha]; [done|].
  destruct (String.eqb_spec "label" s) as [<-|Hl]; [done|].
  unfold getattr, attributes, no_attribute. cbn [assoc].
  repeat match goal with
  | |- context [String.eqb ?k ?n] =>
      replace (String.eqb k n) with false
        by (symmetry; apply String.eqb_neq; cbv [String.append]; congruence)
  end.
  done.
Qed.

Lemma classify_run mode pools tracks c :
  classify mode pools tracks c
  = match mode with
    | MStr s =>
        if String.eqb "artist" s then split_by_artist pools tracks c
        else if String.eqb "label" s then split_by_label pools tracks c
        else (Raise no_attribute, c)
    | MEnum _ => (Raise not_a_str, c)
    end.
Proof.
  unfold classify. destruct mode as [s|m]; [|done].
  unfold bind, method_name, ret. rewrite getattr_split_by.
  destruct (String.eqb "artist" s); [done|].
  destruct (String.eqb "label" s); done.
Qed.

Lemma classify_other mode pools tracks c :
  mode ≠ MStr "artist" → mode ≠ MStr "label" →
  ∃ e, classify mode pools tracks c = (Raise e, c) ∧ (e = no_attribute ∨ e = not_a_str).
Proof.
  intros Ha Hl. rewrite classify_run. destruct mode as [s|m].
  - destruct (String.eqb_spec "artist" s) as [<-|_]; [done|].
    destruct (String.eqb_spec "label" s) as [<-|_]; [done|].
    exists no_attribute. by split; [|left].
  - exists not_a_str. by split; [|right].
Qed.

(** ** [split]: validation and orchestration *)

Lemma split_unset self by_arg playlist_arg into_arg fuel c :
  let s := merge self by_arg playlist_arg into_arg in
  origin_playlist s = None ∨ split_type s = None ∨ split_pools s = None →
  split self by_arg playlist_arg into_arg fuel c = (Raise ConfigurationError, c).
Proof.
  intros s Hs. unfold split. fold s.
  destruct (origin_playlist s); [|done].
  destruct (split_type s); [|done].
  destruct (split_pools s); [|done].
  by destruct Hs as [?|[?|?]].
Qed.

Lemma split_run self by_arg playlist_arg into_arg fuel c origin mode pools :
  let s := merge self by_arg playlist_arg into_arg in
  origin_playlist s = Some origin → split_type s = Some mode →
  split_pools s = Some pools →
  split self by_arg playlist_arg into_arg fuel c
  = match target_playlists s with
    | None => do_split fuel origin mode pools (TargetGen (length pools)) c
    | Some (TargetList l) =>
        if decide (length l = length pools ∨ length l = length pools + 1)
        then do_split fuel origin mode pools
               (match l with [] => TargetGen (length pools) | _ => TargetList l end) c
        else (Raise BucketCountMismatch, c)
    | Some (TargetGen _) =>
        (Raise (TypeError "object of type 'generator' has no len()"), c)
    end.
Proof.
  intros s Ho Hm Hp. unfold split. fold s. rewrite Ho, Hm, Hp.
  destruct (target_playlists s) as [[l|n]|]; [| done | done].
  unfold bind; simpl. unfold ret.
  destruct (decide (length l = length pools ∨ length l = length pools + 1)) as [Hok|Hbad].
  - assert (bool_decide (length pools ≠ length l)
            && bool_decide (length pools + 1 ≠ length l) = false) as ->.
    { apply andb_false_iff. rewrite !bool_decide_eq_false. lia. }
    by destruct l.
  - assert (bool_decide (length pools ≠ length l)
            && bool_decide (length pools + 1 ≠ length l) = true) as ->.
    { apply andb_true_iff. rewrite !bool_decide_eq_true. lia. }
    done.
Qed.

Lemma do_split_run fuel origin mode pools t c items c1 :
  get_all_playlist_items fuel origin c = (Ok items, c1) →
  do_split fuel origin mode pools t c
  = (track_pools <- classify mode pools (map item_track items) ;;
     zip_loop track_pools t) c1.
Proof. intros H. unfold do_split. unfold bind at 1. by rewrite H. Qed.

Lemma do_split_never_ok fuel origin mode pools t c :
  mode ≠ MStr "artist" → mode ≠ MStr "label" →
  (do_split fuel origin mode pools t c).1 ≠ Ok tt.
Proof.
  intros Ha Hl. unfold do_split. unfold bind at 1.
  destruct (get_all_playlist_items fuel origin c) as [[items|e|] c1]; [|done|done].
  unfold bind.
  destruct (classify_other mode pools (map item_track items) c1 Ha Hl)
    as (e & -> & _).
  done.
Qed.

(** C10. The classifier is found by name: with the stored mode ["artist"]
    or ["label"] the call reaches the corresponding classifier; any other
    mode value, the members of [SplitTypes] included, makes the dispatch
    raise ([AttributeError] for another string, [TypeError] for an enum
    member), so [split] never completes, and once validation has passed and
    the origin has been read it fails at the dispatch with nothing written. *)
Theorem split_dispatch_by_name (mode : mode_value) :
  (∀ pools tracks c,
     (mode = MStr "artist" →
      classify mode pools tracks c = split_by_artist pools tracks c) ∧
     (mode = MStr "label" →
      classify mode pools tracks c = split_by_label pools tracks c)) ∧
  (mode ≠ MStr "artist" → mode ≠ MStr "label" →
   (∀ pools tracks c,
      ∃ e, classify mode pools tracks c = (Raise e, c) ∧
           (e = no_attribute ∨ e = not_a_str)) ∧
   (∀ self by_arg playlist_arg into_arg fuel c,
      split_type (merge self by_arg playlist_arg into_arg) = Some mode →
      (split self by_arg playlist_arg into_arg fuel c).1 ≠ Ok tt) ∧
   (∀ self by_arg playlist_arg into_arg fuel c origin pools items c1,
      let s := merge self by_arg playlist_arg into_arg in
      origin_playlist s = Some origin → split_type s = Some mode →
      split_pools s = Some pools →
      (target_playlists s = None ∨
       ∃ l, target_playlists s = Some (TargetList l) ∧
            (length l = length pools ∨ length l = length pools + 1)) →
      get_all_playlist_items fuel origin c = (Ok items, c1) →
      ∃ e, split self by_arg playlist_arg into_arg fuel c = (Raise e, c1) ∧
           (e = no_attribute ∨ e = not_a_str))) ∧
  (∀ m pools tracks c,
     mode = MEnum m → classify mode pools tracks c = (Raise not_a_str, c)).
Proof.
  split; [|split].
  - intros pools tracks c. split; intros ->; by rewrite classify_run.
  - intros Ha Hl. split; [|split].
    + intros pools tracks c. by apply classify_other.
    + intros self by_arg playlist_arg into_arg fuel c Hm.
      set (s := merge self by_arg playlist_arg into_arg) in *.
      destruct (origin_playlist s) as [origin|] eqn:Ho;
        [|rewrite split_unset by (fold s; auto); done].
      destruct (split_pools s) as [pools|] eqn:Hp;
        [|rewrite split_unset by (fold s; auto); done].
      rewrite (split_run _ _ _ _ _ _ origin mode pools) by done. fold s.
      destruct (target_playlists s) as [[l|n]|]; [| done |].
      * case_decide; [|done]. by apply do_split_never_ok.
      * by apply do_split_never_ok.
    + intros self by_arg playlist_arg into_arg fuel c origin pools items c1 s
        Ho Hm Hp Ht Hget.
      destruct (classify_other mode pools (map item_track items) c1 Ha Hl)
        as (e & He & Hkind).
      exists e. split; [|done].
      rewrite (split_run _ _ _ _ _ _ origin mode pools) by done. fold s.
      destruct Ht as [-> | (l & -> & Hlen)].
      * rewrite (do_split_run _ _ _ _ _ _ items c1) by done.
        unfold bind. by rewrite He.
      * rewrite decide_True by done.
        rewrite (do_split_run _ _ _ _ _ _ items c1) by done.
        unfold bind. by rewrite He.
  - intros m pools tracks c ->. by rewrite classify_run.
Qed.

(** C5 (as the code has it). [split] raises the configuration error when,
    after merging its own keyword arguments, the origin playlist, the split
    type or the pools are unset ([None]); with all three set it raises the
    target-count error when a target list is supplied whose length is
    neither [len(pools)] nor [len(pools) + 1]; in both cases the catalog is
    left untouched and no call is issued.  Values that are set but empty
    pass validation. *)
Theorem split_validation
    (self : Splitter) (by_arg : option (mode_value * list (list string)))
    (playlist_arg : option string) (into_arg : option (list string))
    (fuel : nat) (c : Catalog) :
  let s := merge self by_arg playlist_arg into_arg in
  (origin_playlist s = None ∨ split_type s = None ∨ split_pools s = None →
   split self by_arg playlist_arg into_arg fuel c = (Raise ConfigurationError, c)) ∧
  (∀ origin mode pools l,
     origin_playlist s = Some origin → split_type s = Some mode →
     split_pools s = Some pools → target_playlists s = Some (TargetList l) →
     length l ≠ length pools → length l ≠ length pools + 1 →
     split self by_arg playlist_arg into_arg fuel c = (Raise BucketCountMismatch, c)).
Proof.
  intros s. split.
  - apply split_unset.
  - intros origin mode pools l Ho Hm Hp Ht Hn Hn1.
    rewrite (split_run _ _ _ _ _ _ origin mode pools) by done.
    fold s. rewrite Ht. rewrite decide_False by lia. done.
Qed.

(** ** Pairing buckets with destinations *)

Lemma reset_write_run p tracks c :
  (reset_playlist p ;; write_playlist p tracks) c
  = (Ok tt, upd c (<[p := tracks]> (cat_contents c)) (pair_calls p tracks)).
Proof.
  unfold bind. rewrite reset_playlist_run, write_playlist_run.
  rewrite upd_upd. simpl. by rewrite insert_insert_eq.
Qed.

Lemma zip_loop_list buckets l c :
  zip_loop buckets (TargetList l) c
  = (if decide (length buckets = length l) then Ok tt
     else if decide (length buckets < length l) then Raise zip_longer
     else Raise zip_shorter,
     upd c (written (cat_contents c) (zip buckets l))
       (concat (zip_with (λ b p, pair_calls p b) buckets l))).
Proof.
  revert l c. induction buckets as [|b buckets IH]; intros l c.
  - destruct l as [|p l]; simpl; unfold bind, ret, raise; simpl;
      by rewrite upd_id.
  - destruct l as [|p l]; simpl; unfold bind at 1, ret, raise; simpl.
    + by rewrite upd_id.
    + pose proof (reset_write_run p b c) as Hrw. unfold bind in Hrw.
      unfold bind.
      destruct (reset_playlist p c) as [[[]|e|] c1] eqn:Hreset; try done.
      rewrite Hrw. rewrite IH. rewrite upd_upd. simpl.
      repeat case_decide; try lia; done.
Qed.

Lemma make_target_playlist_run c :
  make_target_playlist c
  = (Ok ("created:" +:+ pretty (cat_created c)),
     mkCatalog (cat_playlists c) (cat_cursors c) (cat_albums c) (cat_user c)
       (<["created:" +:+ pretty (cat_created c) := []]> (cat_contents c))
       (S (cat_created c))
       (cat_calls c ++ [CCurrentUser; CUserPlaylistCreate (cat_user c) "test1"])).
Proof.
  unfold make_target_playlist, client_current_user, client_user_playlist_create,
    bind, log, add_calls, upd; simpl.
  by rewrite <- app_assoc.
Qed.

Lemma reset_write_created p tracks c :
  ∃ c', (reset_playlist p ;; write_playlist p tracks) c = (Ok tt, c') ∧
        cat_created c' = cat_created c.
Proof. eexists. split; [apply reset_write_run|done]. Qed.

(** The generator of [n] playlists against [n + 1] buckets: [n] playlists
    are created and written, then the strict [zip] raises. *)
Lemma zip_loop_gen_short n buckets c :
  length buckets = n + 1 →
  ∃ c', zip_loop buckets (TargetGen n) c = (Raise zip_shorter, c') ∧
        cat_created c' = cat_created c + n.
Proof.
  revert buckets c. induction n as [|n IH]; intros buckets c Hlen.
  - destruct buckets as [|b buckets]; [simpl in Hlen; lia|].
    exists c. split; [done|lia].
  - destruct buckets as [|b buckets]; [simpl in Hlen; lia|].
    simpl. unfold bind at 1. unfold next_target, bind at 1.
    rewrite make_target_playlist_run. unfold ret.
    set (c1 := mkCatalog _ _ _ _ _ _ _).
    set (p := "created:" +:+ pretty (cat_created c)).
    destruct (reset_write_created p b c1) as (c2 & Hrw & Hcr).
    unfold bind in Hrw. unfold bind.
    destruct (reset_playlist p c1) as [[[]|e|] c1'] eqn:Hreset; try done.
    rewrite Hrw.
    destruct (IH buckets c2) as (c' & Hz & Hc'); [simpl in Hlen; lia|].
    exists c'. split; [done|]. rewrite Hc', Hcr. simpl. lia.
Qed.

Lemma split_targets_plus_one_ok
    self by_arg playlist_arg into_arg fuel c origin pools l items c1 :
  let s := merge self by_arg playlist_arg into_arg in
  origin_playlist s = Some origin → split_type s = Some (MStr "artist") →
  split_pools s = Some pools → target_playlists s = Some (TargetList l) →
  length l = length pools + 1 →
  get_all_playlist_items fuel origin c = (Ok items, c1) →
  ∃ buckets,
    split_by_artist pools (map item_track items) c1 = (Ok buckets, c1) ∧
    split self by_arg playlist_arg into_arg fuel c
    = (Ok tt, upd c1 (written (cat_contents c1) (zip buckets l))
                (concat (zip_with (λ b p, pair_calls p b) buckets l))).
Proof.
  intros s Ho Hm Hp Ht Hlen Hget.
  eexists. split; [apply split_by_artist_run|].
  rewrite (split_run _ _ _ _ _ _ origin (MStr "artist") pools) by done.
  fold s. rewrite Ht, decide_True by lia.
  rewrite (do_split_run _ _ _ _ _ _ items c1) by done.
  unfold bind. rewrite classify_run. simpl. rewrite split_by_artist_run.
  destruct l as [|p l]; [simpl in Hlen; lia|].
  rewrite zip_loop_list.
  rewrite decide_True; [done|].
  rewrite distribute_length, length_replicate. lia.
Qed.

Lemma split_targets_same_length_raises
    self by_arg playlist_arg into_arg fuel c origin pools l items c1 :
  let s := merge self by_arg playlist_arg into_arg in
  origin_playlist s = Some origin → split_type s = Some (MStr "artist") →
  split_pools s = Some pools → target_playlists s = Some (TargetList l) →
  length l = length pools →
  get_all_playlist_items fuel origin c = (Ok items, c1) →
  ∃ c', split self by_arg playlist_arg into_arg fuel c = (Raise zip_shorter, c').
Proof.
  intros s Ho Hm Hp Ht Hlen Hget.
  rewrite (split_run _ _ _ _ _ _ origin (MStr "artist") pools) by done.
  fold s. rewrite Ht, decide_True by lia.
  rewrite (do_split_run _ _ _ _ _ _ items c1) by done.
  unfold bind. rewrite classify_run. simpl. rewrite split_by_artist_run.
  destruct l as [|p l].
  - edestruct zip_loop_gen_short as (c' & -> & _); [|by eexists].
    rewrite distribute_length, length_replicate. done.
  - rewrite zip_loop_list. eexists.
    rewrite decide_False, decide_False; [done| |];
      rewrite distribute_length, length_replicate; lia.
Qed.

Lemma split_targets_unset_raises
    self by_arg playlist_arg into_arg fuel c origin pools items c1 :
  let s := merge self by_arg playlist_arg into_arg in
  origin_playlist s = Some origin → split_type s = Some (MStr "artist") →
  split_pools s = Some pools → target_playlists s = None →
  get_all_playlist_items fuel origin c = (Ok items, c1) →
  ∃ c', split self by_arg playlist_arg into_arg fuel c = (Raise zip_shorter, c') ∧
        cat_created c' = cat_created c1 + length pools.
Proof.
  intros s Ho Hm Hp Ht Hget.
  rewrite (split_run _ _ _ _ _ _ origin (MStr "artist") pools) by done.
  fold s. rewrite Ht.
  rewrite (do_split_run _ _ _ _ _ _ items c1) by done.
  unfold bind. rewrite classify_run. simpl. rewrite split_by_artist_run.
  apply zip_loop_gen_short.
  rewrite distribute_length, length_replicate. done.
Qed.

(** C3. With two pools and two target playlists (the number the docstring
    of [split] asks for, accepted by validation) [split] writes the first two
    buckets and then raises [ValueError] from the strict [zip]: the overflow
    bucket has no destination. *)
Theorem split_same_number_of_targets_raises :
  let r := split (into (configured example_pools) ["p0"; "p1"])
             None None None 1 example_catalog in
  r.1 = Raise zip_shorter ∧
  cat_calls r.2
  = CPlaylist "origin" :: CNext "page2"
    :: pair_calls "p0" ["track1"] ++ pair_calls "p1" ["track2"] ∧
  cat_contents r.2 !! "p0" = Some ["track1"] ∧
  cat_contents r.2 !! "p1" = Some ["track2"] ∧
  dom (cat_contents r.2) = {["p0"; "p1"]}.
Proof. vm_compute. repeat split; reflexivity. Qed.

(** C4. With the targets unset, the three tracks of the example and pools
    [[{A},{C}]], [split] creates two playlists only, writes bucket 0 and
    bucket 1 to them and then raises [ValueError] from the strict [zip]:
    no third playlist is created and [track3] is written nowhere. *)
Theorem split_auto_created_targets_raises :
  let r := split (configured example_pools) None None None 1 example_catalog in
  r.1 = Raise zip_shorter ∧
  cat_created r.2 = 2 ∧
  cat_calls r.2
  = CPlaylist "origin" :: CNext "page2"
    :: CCurrentUser :: CUserPlaylistCreate "me" "test1"
    :: pair_calls "created:0" ["track1"]
    ++ CCurrentUser :: CUserPlaylistCreate "me" "test1"
    :: pair_calls "created:1" ["track2"] ∧
  cat_contents r.2 !! "created:0" = Some ["track1"] ∧
  cat_contents r.2 !! "created:1" = Some ["track2"] ∧
  dom (cat_contents r.2) = {["created:0"; "created:1"]}.
Proof. vm_compute. repeat split; reflexivity. Qed.

Lemma split_by_artist_stable_partition_witness :
  (∀ t1 t2, t1 ∈ example_tracks → t2 ∈ example_tracks →
            track_id t1 = track_id t2 → track_artists t1 = track_artists t2) ∧
  ∃ buckets,
    split_by_artist example_pools example_tracks example_catalog
    = (Ok buckets, example_catalog) ∧
    ∀ x, x ∈ map track_id example_tracks →
      ∃ i, (∃ b, buckets !! i = Some b ∧ x ∈ b) ∧
           ∀ j b, buckets !! j = Some b → x ∈ b → j = i.
Proof.
  assert (∀ t1 t2, t1 ∈ example_tracks → t2 ∈ example_tracks →
                   track_id t1 = track_id t2 → track_artists t1 = track_artists t2)
    as Hfun.
  { intros t1 t2 H1 H2 Hid. unfold example_tracks in *.
    elem_cases H1; elem_cases H2; (reflexivity || discriminate Hid). }
  split; [exact Hfun|].
  destruct (split_by_artist_stable_partition example_pools example_tracks
              example_catalog) as (buckets & Hrun & _ & _ & _ & _ & Huniq).
  exists buckets. split; [exact Hrun|exact (Huniq Hfun)].
Defined.

Lemma split_by_artist_first_match_witness :
  shares_artist track_both ["A"] ∧ shares_artist track_both ["C"] ∧
  ∃ (cls : Track → nat) buckets,
    split_by_artist example_pools [track_both] example_catalog
    = (Ok buckets, example_catalog) ∧
    cls track_both = 0 ∧ cls track_both ≠ 1.
Proof.
  assert (shares_artist track_both ["A"]) as HA.
  { exists "A". split; [right; left|left]. }
  assert (shares_artist track_both ["C"]) as HC.
  { exists "C". split; left. }
  split; [exact HA|]. split; [exact HC|].
  destruct (split_by_artist_first_match example_pools [track_both]
              example_catalog) as (cls & buckets & Hrun & _ & _ & Hfirst & _).
  exists cls, buckets. split; [exact Hrun|].
  exact (Hfirst track_both ["A"] ["C"] [] eq_refl HA HC).
Defined.

Lemma split_by_label_first_match_witness :
  (∀ t, t ∈ example_tracks →
        is_Some (cat_albums example_catalog !! track_album t)) ∧
  ∃ (cls : Track → nat) buckets,
    split_by_label label_pools example_tracks example_catalog
    = (Ok buckets,
       add_calls example_catalog
         (map (λ t, CAlbum (track_album t)) example_tracks)) ∧
    length buckets = 3.
Proof.
  assert (∀ t, t ∈ example_tracks →
               is_Some (cat_albums example_catalog !! track_album t)) as Hall.
  { intros t Ht. unfold example_tracks in Ht.
    elem_cases Ht; vm_compute; eauto. }
  split; [exact Hall|].
  destruct (split_by_label_first_match label_pools example_tracks
              example_catalog Hall) as (cls & buckets & Hrun & Hlen & _).
  exists cls, buckets. split; [exact Hrun|exact Hlen].
Defined.

(** Label matching is exact: ["sony"] is not in the pool [["Sony"]]. *)
Example split_by_label_case_sensitive :
  (split_by_label label_pools example_tracks example_catalog).1
  = Ok [["track1"]; ["track2"]; ["track3"]].
Proof. vm_compute. reflexivity. Qed.

Lemma write_playlist_chunked_witness :
  ∃ chunks c',
    write_playlist "p0" [] example_catalog = (Ok tt, c') ∧ chunks = [] ∧
    cat_calls c'
    = cat_calls example_catalog ++ reset_calls "p0" ++ map (CAddItems "p0") chunks.
Proof.
  destruct (write_playlist_chunked "p0" [] example_catalog)
    as (chunks & c' & Hrun & Hcalls & _ & _ & _ & Hzero).
  exists chunks, c'. split; [exact Hrun|]. split; [exact (Hzero eq_refl)|exact Hcalls].
Defined.

Example chunk_track_list_120 :
  map length (chunk_track_list (replicate 120 "x")) = [50; 50; 20].
Proof. vm_compute. reflexivity. Qed.

Lemma reset_then_write_witness :
  ∃ c2, (reset_playlist "p0" ;; write_playlist "p0" ["track1"]) example_catalog
        = (Ok tt, c2) ∧
        cat_contents c2 !! "p0" = Some ["track1"] ∧
        cat_contents c2 !! "p1" = cat_contents example_catalog !! "p1".
Proof.
  destruct (reset_then_write "p0" ["track1"] example_catalog)
    as (_ & c2 & Hrun & Hp & Hother).
  exists c2. split; [exact Hrun|]. split; [exact Hp|].
  apply Hother. discriminate.
Defined.

Lemma get_all_playlist_items_pages_witness :
  cat_playlists example_catalog !! "origin" = Some page1 ∧
  page_chain (cat_cursors example_catalog) page1 [page2] ∧
  get_all_playlist_items 1 "origin" example_catalog
  = (Ok [mkItem track1; mkItem track2; mkItem track3],
     add_calls example_catalog [CPlaylist "origin"; CNext "page2"]).
Proof.
  assert (cat_playlists example_catalog !! "origin" = Some page1) as Hp
    by reflexivity.
  assert (page_chain (cat_cursors example_catalog) page1 [page2]) as Hc.
  { exists "page2". repeat split; reflexivity. }
  split; [exact Hp|]. split; [exact Hc|].
  exact (proj1 (get_all_playlist_items_pages "origin" page1 [page2] 1
                  example_catalog Hp Hc (le_n 1))).
Defined.

Lemma split_validation_witness :
  split init None None None 1 example_catalog
  = (Raise ConfigurationError, example_catalog) ∧
  split (configured example_pools) None None (Some ["p0"]) 1 example_catalog
  = (Raise BucketCountMismatch, example_catalog).
Proof.
  split.
  - apply (split_validation init None None None 1 example_catalog).
    left. reflexivity.
  - apply (proj2 (split_validation (configured example_pools) None None
                    (Some ["p0"]) 1 example_catalog)
             "origin" (MStr "artist") example_pools ["p0"]);
      (reflexivity || (simpl; lia)).
Defined.

(** C5, counterexample: empty pools and an empty split type pass
    validation.  With empty pools and one target, [split] reads the origin,
    writes every track to the target and completes; with an empty split
    type it reads the origin and then fails at the dispatch. *)
Lemma split_empty_values_pass_validation :
  (let self := into (configured []) ["p0"] in
   let r := split self None None None 1 example_catalog in
   split_pools self = Some [] ∧
   r.1 = Ok tt ∧ r.1 ≠ Raise ConfigurationError ∧
   cat_calls r.2
   = CPlaylist "origin" :: CNext "page2"
     :: pair_calls "p0" ["track1"; "track2"; "track3"]) ∧
  (let self := by_ (playlist init "origin") (MStr EmptyString) example_pools in
   let r := split self None None None 1 example_catalog in
   split_type self = Some (MStr EmptyString) ∧
   r.1 = Raise no_attribute ∧ r.1 ≠ Raise ConfigurationError ∧
   cat_calls r.2 = [CPlaylist "origin"; CNext "page2"]).
Proof. vm_compute. repeat split; (reflexivity || discriminate). Qed.

Lemma split_dispatch_by_name_witness :
  MEnum ARTIST ≠ MStr "artist" ∧ MEnum ARTIST ≠ MStr "label" ∧
  ∃ e, split (by_ (playlist init "origin") (MEnum ARTIST) example_pools)
         None None None 1 example_catalog
       = (Raise e, add_calls example_catalog [CPlaylist "origin"; CNext "page2"]) ∧
       (e = no_attribute ∨ e = not_a_str).
Proof.
  assert (MEnum ARTIST ≠ MStr "artist") as Ha by discriminate.
  assert (MEnum ARTIST ≠ MStr "label") as Hl by discriminate.
  split; [exact Ha|]. split; [exact Hl|].
  destruct (split_dispatch_by_name (MEnum ARTIST)) as (_ & Hother & _).
  destruct (Hother Ha Hl) as (_ & _ & Hsplit).
  apply (Hsplit (by_ (playlist init "origin") (MEnum ARTIST) example_pools)
           None None None 1 example_catalog "origin" example_pools
           [mkItem track1; mkItem track2; mkItem track3]);
    try reflexivity.
  left. reflexivity.
Defined.

(** * Further properties of the code *)

(** ** Login *)

Lemma existsb_is_None_complete cr :
  existsb is_None (credential_values cr) = false ↔ complete cr.
Proof.
  unfold complete, credential_values. destruct cr as [a b c]; simpl. split.
  - intros H. destruct a, b, c; try discriminate H. repeat split; by eexists.
  - intros ([a' ->] & [b' ->] & [c' ->]). done.
Qed.

Lemma spotify_login_complete self cr :
  credentials self = Some cr → complete cr →
  spotify_login self = (Ok tt, mkAuth (Some (client_of cr)) (Some cr)).
Proof.
  intros Hcr Hc. unfold spotify_login. rewrite Hcr.
  apply existsb_is_None_complete in Hc. by rewrite Hc.
Qed.

Lemma spotify_login_incomplete self cr :
  credentials self = Some cr → ¬ complete cr →
  spotify_login self = (Raise credentials_not_found, self).
Proof.
  intros Hcr Hc. unfold spotify_login. rewrite Hcr.
  destruct (existsb is_None (credential_values cr)) eqn:He; [done|].
  by apply existsb_is_None_complete in He.
Qed.

Lemma login_falsy_arg env arg self :
  dict_truthy arg = false →
  login env arg self
  = spotify_login (if is_None (credentials self)
                   then get_credentials_from_env env self else self).
Proof.
  intros Hf. unfold login. destruct arg as [d|]; [|done]. by rewrite Hf.
Qed.

(** X1. Without stored credentials and without a (non-empty) argument,
    [login] reads the three environment variables: when all are set the
    client is built from them with the fixed scopes; when one is unset it
    raises the credentials [ValueError], leaves the client as it was and
    keeps the incomplete credentials in the object. *)
Theorem login_from_environment
    (env : gmap string string) (arg : option pydict) (self : Auth) :
  credentials self = None → dict_truthy arg = false →
  (complete (env_credentials env) →
   login env arg self
   = (Ok tt, mkAuth (Some (client_of (env_credentials env)))
               (Some (env_credentials env)))) ∧
  (¬ complete (env_credentials env) →
   login env arg self
   = (Raise credentials_not_found,
      mkAuth (client self) (Some (env_credentials env)))).
Proof.
  intros Hnone Hf. rewrite login_falsy_arg, Hnone by done. simpl. split.
  - intros Hc. by rewrite (spotify_login_complete _ (env_credentials env)).
  - intros Hc. by rewrite (spotify_login_incomplete _ (env_credentials env)).
Qed.

(** X2. Stored credentials shadow the environment: with credentials in
    the object and no (non-empty) argument, the outcome of [login] does not
    depend on the environment; incomplete stored credentials raise the
    credentials [ValueError] even when the environment is complete. *)
Theorem login_stored_credentials_shadow_environment
    (env : gmap string string) (arg : option pydict) (self : Auth)
    (cr : SpotifyCredentials) :
  credentials self = Some cr → dict_truthy arg = false →
  (complete cr →
   login env arg self = (Ok tt, mkAuth (Some (client_of cr)) (Some cr))) ∧
  (¬ complete cr → login env arg self = (Raise credentials_not_found, self)).
Proof.
  intros Hcr Hf. rewrite login_falsy_arg, Hcr by done. simpl. split.
  - intros Hc. by apply spotify_login_complete.
  - intros Hc. by apply (spotify_login_incomplete self cr).
Qed.

(** X3. A failed login from the environment is sticky: the incomplete
    credentials stay in the object, so calling [login()] again fails in the
    same way whatever the environment has become. *)
Theorem login_failure_is_sticky
    (env env' : gmap string string) (self : Auth) :
  credentials self = None → ¬ complete (env_credentials env) →
  (login env None self).1 = Raise credentials_not_found ∧
  login env' None (login env None self).2
  = (Raise credentials_not_found, (login env None self).2).
Proof.
  intros Hnone Hc.
  assert (login env None self
          = (Raise credentials_not_found,
             mkAuth (client self) (Some (env_credentials env)))) as ->.
  { rewrite login_falsy_arg, Hnone by done. simpl.
    by rewrite (spotify_login_incomplete _ (env_credentials env)). }
  split; [done|]. simpl.
  rewrite login_falsy_arg by done. simpl.
  by rewrite (spotify_login_incomplete _ (env_credentials env)).
Qed.

Lemma SpotifyCredentials_init_ok d cr :
  SpotifyCredentials_init d = Ok cr ↔
  dom d ⊆ ({["client_id"; "client_secret"; "redirect_uri"]} : gset string) ∧
  d !! "client_id" = Some (client_id cr) ∧
  d !! "client_secret" = Some (client_secret cr) ∧
  d !! "redirect_uri" = Some (redirect_uri cr).
Proof.
  unfold SpotifyCredentials_init. destruct cr as [a b c]; simpl.
  case_decide as Hdom; [|split; [done|by intros [? _]]].
  destruct (d !! "client_id") as [a'|], (d !! "client_secret") as [b'|],
    (d !! "redirect_uri") as [c'|]; split; try done;
    try (intros (_ & ? & ? & ?); done).
  - intros [= -> -> ->]. done.
  - intros (_ & [= ->] & [= ->] & [= ->]). done.
Qed.

(** X4. A non-empty [credentials] argument of [login] replaces whatever
    the object or the environment hold: with exactly the three keys and
    no [None] value the client is built from the argument; with a missing or
    an extra key the constructor's [TypeError] is raised and the object is
    unchanged.  An empty dict is ignored like [None]. *)
Theorem login_argument_overrides
    (env : gmap string string) (self : Auth) (d : pydict) :
  (d ≠ ∅ →
   (∀ cr, SpotifyCredentials_init d = Ok cr → complete cr →
      login env (Some d) self = (Ok tt, mkAuth (Some (client_of cr)) (Some cr))) ∧
   (dom d ≠ ({["client_id"; "client_secret"; "redirect_uri"]} : gset string) →
      ∃ msg, login env (Some d) self = (Raise (TypeError msg), self))) ∧
  login env (Some ∅) self = login env None self.
Proof.
  split.
  - intros Hne.
    assert (dict_truthy (Some d) = true) as Ht.
    { simpl. by rewrite bool_decide_eq_false_2. }
    split.
    + intros cr Hinit Hc. unfold login. rewrite Ht, Hinit. simpl.
      by apply spotify_login_complete.
    + intros Hdom. unfold login. rewrite Ht.
      unfold SpotifyCredentials_init. case_decide as Hsub; [|by eexists].
      destruct (d !! "client_id") as [a|] eqn:Ha; [|by eexists].
      destruct (d !! "client_secret") as [b|] eqn:Hb; [|by eexists].
      destruct (d !! "redirect_uri") as [c|] eqn:Hc; [|by eexists].
      exfalso. apply Hdom. apply set_eq. intros k. split; [apply Hsub|].
      rewrite !elem_of_union, !elem_of_singleton, elem_of_dom.
      intros [[->| ->]| ->]; by eexists.
  - rewrite !login_falsy_arg; done.
Qed.

(** X5. [__init__] with a dict builds the credentials exactly when the
    dict has the three keys [client_id], [client_secret], [redirect_uri] and
    nothing else; otherwise it raises [TypeError] (the empty dict included).
    A client sets [client] only, anything else leaves both unset. *)
Theorem init_auth_dict (d : pydict) :
  ((∃ self, init_auth (LoginDict d) = Ok self) ↔
   dom d = ({["client_id"; "client_secret"; "redirect_uri"]} : gset string)) ∧
  (∀ self, init_auth (LoginDict d) = Ok self →
     client self = None ∧
     ∃ cr, credentials self = Some cr ∧
           d !! "client_id" = Some (client_id cr) ∧
           d !! "client_secret" = Some (client_secret cr) ∧
           d !! "redirect_uri" = Some (redirect_uri cr)) ∧
  (dom d ≠ ({["client_id"; "client_secret"; "redirect_uri"]} : gset string) →
   ∃ msg, init_auth (LoginDict d) = Raise (TypeError msg)).
Proof.
  assert (∀ self, init_auth (LoginDict d) = Ok self →
            client self = None ∧
            ∃ cr, credentials self = Some cr ∧ SpotifyCredentials_init d = Ok cr)
    as Hok.
  { intros self. simpl. destruct (SpotifyCredentials_init d) as [cr|e|]; [|done|done].
    intros [= <-]. split; [done|]. by exists cr. }
  assert (∀ cr, SpotifyCredentials_init d = Ok cr →
            dom d = ({["client_id"; "client_secret"; "redirect_uri"]} : gset string))
    as Hdom.
  { intros cr (Hsub & Ha & Hb & Hc)%SpotifyCredentials_init_ok.
    apply set_eq. intros k. split; [apply Hsub|].
    rewrite !elem_of_union, !elem_of_singleton, elem_of_dom.
    intros [[->| ->]| ->]; by eexists. }
  assert (dom d = ({["client_id"; "client_secret"; "redirect_uri"]} : gset string) →
          ∃ cr, SpotifyCredentials_init d = Ok cr) as Hconv.
  { intros Hd.
    assert (∀ k, k ∈ ({["client_id"; "client_secret"; "redirect_uri"]} : gset string) →
                 is_Some (d !! k)) as Hk.
    { intros k Hin. apply elem_of_dom. by rewrite Hd. }
    destruct (Hk "client_id") as [a Ha]; [set_solver|].
    destruct (Hk "client_secret") as [b Hb]; [set_solver|].
    destruct (Hk "redirect_uri") as [c Hc]; [set_solver|].
    exists (mkCredentials a b c). apply SpotifyCredentials_init_ok.
    split; [by rewrite Hd|done]. }
  split; [|split].
  - split.
    + intros [self Hs]. destruct (Hok self Hs) as (_ & cr & _ & Hinit). by eapply Hdom.
    + intros Hd. destruct (Hconv Hd) as [cr Hinit].
      exists (mkAuth None (Some cr)). simpl. by rewrite Hinit.
  - intros self Hs. destruct (Hok self Hs) as (Hcl & cr & Hcr & Hinit).
    split; [done|]. exists cr. split; [done|].
    by apply SpotifyCredentials_init_ok in Hinit as (_ & ? & ? & ?).
  - intros Hd. simpl. unfold SpotifyCredentials_init.
    case_decide as Hsub; [|by eexists].
    destruct (d !! "client_id") as [a|] eqn:Ha; [|by eexists].
    destruct (d !! "client_secret") as [b|] eqn:Hb; [|by eexists].
    destruct (d !! "redirect_uri") as [c|] eqn:Hc; [|by eexists].
    exfalso. apply Hd. apply (Hdom (mkCredentials a b c)).
    apply SpotifyCredentials_init_ok. done.
Qed.

(** X6. The context manager does not use a client passed to [__init__]:
    [__enter__] logs in from the environment, so the given client is
    replaced by a new one when the three variables are set, and the
    credentials [ValueError] is raised when one is missing. *)
Theorem enter_ignores_given_client (env : gmap string string) (cl : Client) :
  init_auth (LoginClient cl) = Ok (mkAuth (Some cl) None) ∧
  (complete (env_credentials env) →
   enter env (mkAuth (Some cl) None)
   = (Ok tt, mkAuth (Some (client_of (env_credentials env)))
               (Some (env_credentials env)))) ∧
  (¬ complete (env_credentials env) →
   enter env (mkAuth (Some cl) None)
   = (Raise credentials_not_found,
      mkAuth (Some cl) (Some (env_credentials env)))).
Proof.
  split; [done|]. unfold enter. rewrite login_falsy_arg by done. simpl. split.
  - intros Hc. by rewrite (spotify_login_complete _ (env_credentials env)).
  - intros Hc. by rewrite (spotify_login_incomplete _ (env_credentials env)).
Qed.

(** ** Chunks *)

Lemma range_loop_lookup fuel i stop k j :
  range_loop fuel i stop 50 !! k = Some j → j = i + 50 * k ∧ j < stop.
Proof.
  revert i k. induction fuel as [|fuel IH]; intros i k H; cbn [range_loop] in H.
  - done.
  - destruct (decide (i < stop)) as [Hlt|]; [|done].
    destruct k as [|k]; simpl in H.
    + injection H as <-. lia.
    + apply IH in H as [-> ?]. lia.
Qed.

(** X7. The [k]-th chunk is the slice [tracks[50k : 50k + 50]]; no chunk
    is empty (no append call is ever issued with an empty list) and every
    chunk but the last holds exactly 50 ids. *)
Theorem chunk_track_list_shape (tracks : list string) (k : nat) (chunk : list string) :
  chunk_track_list tracks !! k = Some chunk →
  chunk = take 50 (drop (50 * k) tracks) ∧
  0 < length chunk ∧
  (S k < length (chunk_track_list tracks) → length chunk = 50).
Proof.
  assert (∀ k' ch, chunk_track_list tracks !! k' = Some ch →
            ch = take 50 (drop (50 * k') tracks) ∧ 50 * k' < length tracks) as Hshape.
  { intros k' ch H. unfold chunk_track_list, py_range in H.
    change (map ?f ?l) with (f <$> l) in H.
    rewrite list_lookup_fmap in H.
    destruct (range_loop _ _ _ _ !! k') as [j|] eqn:Hj; [|done].
    apply range_loop_lookup in Hj as [-> Hlt]. simpl in H. injection H as <-.
    unfold slice. split; [|lia]. f_equal. lia. }
  intros H. destruct (Hshape k chunk H) as [-> Hlt].
  split; [done|]. rewrite length_take, length_drop. split; [lia|].
  intros Hnext. apply lookup_lt_is_Some_2 in Hnext as [ch' Hch'].
  apply Hshape in Hch' as [_ Hlt']. lia.
Qed.

Lemma chunk_track_list_shape_witness :
  chunk_track_list (replicate 120 "x") !! 2 = Some (replicate 20 "x") ∧
  0 < length (replicate 20 "x").
Proof.
  assert (chunk_track_list (replicate 120 "x") !! 2 = Some (replicate 20 "x")) as H
    by (vm_compute; reflexivity).
  split; [exact H|].
  exact (proj1 (proj2 (chunk_track_list_shape (replicate 120 "x") 2
                         (replicate 20 "x") H))).
Defined.

(** ** Configuration *)

(** X8. The value of a [SplitTypes] member is accepted where the member
    itself is not: storing [SplitTypes.ARTIST.value] or
    [SplitTypes.LABEL.value] as split type dispatches to the artist or the
    label classifier. *)
Theorem classify_enum_value
    (m : SplitTypes) (pools : list (list string)) (tracks : list Track) (c : Catalog) :
  classify (MStr (SplitTypes_value m)) pools tracks c
  = match m with
    | ARTIST => split_by_artist pools tracks c
    | LABEL => split_by_label pools tracks c
    end.
Proof. rewrite classify_run. by destruct m. Qed.

(** X9. Configuration is last-write-wins and independent of the order of
    the setters: a later [by], [playlist] or [into] replaces the earlier
    value, setters of different fields commute, [split_by] is [by], and the
    keyword arguments of [split] act as setter calls made last, so that with
    all three given the earlier configuration is irrelevant. *)
Theorem configuration_last_write_wins
    (self : Splitter) (m m' : mode_value) (l l' : list (list string))
    (p p' : string) (t t' : list string) :
  by_ (by_ self m l) m' l' = by_ self m' l' ∧
  playlist (playlist self p) p' = playlist self p' ∧
  into (into self t) t' = into self t' ∧
  split_by self m l = by_ self m l ∧
  into (playlist (by_ self m l) p) t = by_ (into (playlist self p) t) m l ∧
  into (playlist (by_ self m l) p) t = playlist (by_ (into self t) m l) p ∧
  (∀ by_arg playlist_arg into_arg fuel c,
     split self by_arg playlist_arg into_arg fuel c
     = split (merge self by_arg playlist_arg into_arg) None None None fuel c) ∧
  (∀ self' fuel c,
     split self (Some (m, l)) (Some p) (Some t) fuel c
     = split self' (Some (m, l)) (Some p) (Some t) fuel c) ∧
  (∀ fuel c,
     split (into (playlist (by_ self m l) p) t) None None None fuel c
     = split init (Some (m, l)) (Some p) (Some t) fuel c).
Proof. repeat split; done. Qed.

(** ** Paging without an end *)

Lemma paging_loop_cycle fuel page url acc c :
  page_next page = Some url → truthy (Some url) = true →
  cat_cursors c !! url = Some page →
  (paging_loop fuel page acc c).1 = OutOfFuel.
Proof.
  intros Hn Ht. revert acc c.
  induction fuel as [|fuel IH]; intros acc c Hq; cbn [paging_loop];
    rewrite Hn, Ht; [done|].
  unfold bind. rewrite (client_next_run c page url page) by done.
  by apply IH.
Qed.

(** X10. The paging loop has no guard against a repeated cursor: when
    the cursor of the first page leads back to that page, fetching the
    playlist never returns, however many iterations are allowed. *)
Theorem get_all_playlist_items_cycle
    (pid url : string) (page : Page) (c : Catalog) (fuel : nat) :
  cat_playlists c !! pid = Some page →
  page_next page = Some url → truthy (Some url) = true →
  cat_cursors c !! url = Some page →
  (get_all_playlist_items fuel pid c).1 = OutOfFuel.
Proof.
  intros Hp Hn Ht Hq. unfold get_all_playlist_items, bind.
  rewrite (client_playlist_run c pid page) by done.
  by eapply paging_loop_cycle.
Qed.

(** ** What the phases of [split] do to the catalog *)

Lemma add_calls_calls c l : cat_calls (add_calls c l) = cat_calls c ++ l.
Proof. done. Qed.

Lemma client_next_state page c :
  ∃ l, (client_next page c).2 = add_calls c l ∧ forallb is_read l = true.
Proof.
  unfold client_next. destruct (page_next page) as [url|];
    [|exists []; by rewrite add_calls_nil].
  destruct (truthy (Some url)); [|exists []; by rewrite add_calls_nil].
  exists [CNext url]. unfold bind, log; simpl.
  by destruct (cat_cursors c !! url).
Qed.

Lemma paging_loop_state fuel page acc c :
  ∃ l, (paging_loop fuel page acc c).2 = add_calls c l ∧ forallb is_read l = true.
Proof.
  revert page acc c. induction fuel as [|fuel IH]; intros page acc c;
    cbn [paging_loop].
  - destruct (truthy (page_next page)); exists []; by rewrite add_calls_nil.
  - destruct (truthy (page_next page)); [|exists []; by rewrite add_calls_nil].
    unfold bind.
    destruct (client_next_state page c) as (l1 & Hs & Hr).
    destruct (client_next page c) as [[[q|]|e|] c1]; simpl in Hs; subst c1;
      try by exists l1.
    destruct (IH q (acc ++ page_items q) (add_calls c l1)) as (l2 & Hs2 & Hr2).
    exists (l1 ++ l2). rewrite Hs2, add_calls_add_calls.
    split; [done|]. rewrite forallb_app. by rewrite Hr, Hr2.
Qed.

Lemma get_all_playlist_items_state fuel pid c :
  ∃ l, (get_all_playlist_items fuel pid c).2 = add_calls c l ∧
       forallb is_read l = true.
Proof.
  unfold get_all_playlist_items, client_playlist, bind, log; simpl.
  destruct (cat_playlists c !! pid) as [page|]; simpl; [|by exists [CPlaylist pid]].
  destruct (paging_loop_state fuel page (page_items page)
              (add_calls c [CPlaylist pid])) as (l & Hs & Hr).
  exists (CPlaylist pid :: l). rewrite Hs, add_calls_add_calls. done.
Qed.

Lemma append_at_state idx x tp c : (append_at idx x tp c).2 = c.
Proof. unfold append_at. by case_decide. Qed.

Lemma append_last_state x tp c : (append_last x tp c).2 = c.
Proof. destruct tp; [done|apply append_at_state]. Qed.

Lemma label_scan_state tid label pools tp c :
  (label_scan tid label pools tp c).2 = c.
Proof.
  induction pools as [|[idx pool] rest IH]; simpl; [apply append_last_state|].
  destruct (label_in label pool); [apply append_at_state|done].
Qed.

Lemma label_loop_state pools tracks tp c :
  ∃ l, (label_loop pools tracks tp c).2 = add_calls c l ∧
       forallb is_read l = true.
Proof.
  revert tp c. induction tracks as [|t tracks IH]; intros tp c; simpl.
  - exists []. by rewrite add_calls_nil.
  - unfold bind at 1. unfold client_album_label at 1. unfold bind at 1, log; simpl.
    destruct (cat_albums c !! track_album t) as [label|]; simpl;
      [|by exists [CAlbum (track_album t)]].
    unfold bind.
    pose proof (label_scan_state (track_id t) label (enumerate pools) tp
                  (add_calls c [CAlbum (track_album t)])) as Hscan.
    destruct (label_scan _ _ _ _ _) as [[tp'|e|] c1]; simpl in Hscan; subst c1;
      try by exists [CAlbum (track_album t)].
    destruct (IH tp' (add_calls c [CAlbum (track_album t)])) as (l & Hs & Hr).
    exists (CAlbum (track_album t) :: l). rewrite Hs, add_calls_add_calls. done.
Qed.

Lemma classify_state mode pools tracks c :
  ∃ l, (classify mode pools tracks c).2 = add_calls c l ∧
       forallb is_read l = true.
Proof.
  rewrite classify_run. destruct mode as [s|m];
    [|exists []; by rewrite add_calls_nil].
  destruct (String.eqb "artist" s).
  { rewrite split_by_artist_run. exists []. by rewrite add_calls_nil. }
  destruct (String.eqb "label" s); [apply label_loop_state|].
  exists []. by rewrite add_calls_nil.
Qed.

Lemma upd_calls c m l : cat_calls (upd c m l) = cat_calls c ++ l.
Proof. done. Qed.

Lemma pair_calls_write p b : forallb is_write (pair_calls p b) = true.
Proof.
  unfold pair_calls. rewrite !forallb_app.
  assert (forallb is_write (map (CAddItems p) (chunk_track_list b)) = true) as ->.
  { apply forallb_forall. intros x (ch & <- & _)%in_map_iff. done. }
  done.
Qed.

Lemma zip_loop_calls buckets t c :
  ∃ l, cat_calls (zip_loop buckets t c).2 = cat_calls c ++ l ∧
       forallb is_write l = true ∧
       (l = [] → (zip_loop buckets t c).2 = c).
Proof.
  revert t c. induction buckets as [|b buckets IH]; intros t c.
  - destruct t as [[|p r]|[|n]]; cbn [zip_loop next_target];
      try (unfold bind, ret, raise; simpl; exists []; by rewrite app_nil_r).
    unfold bind at 1. unfold bind at 1. rewrite make_target_playlist_run.
    unfold ret. simpl.
    exists (create_calls (cat_user c)). done.
  - destruct t as [[|p r]|[|n]]; cbn [zip_loop next_target];
      try (unfold bind, ret, raise; simpl; exists []; by rewrite app_nil_r).
    + unfold bind at 1, ret.
      pose proof (reset_write_run p b c) as Hrw. unfold bind in Hrw. unfold bind.
      destruct (reset_playlist p c) as [[[]|e|] c1] eqn:Hreset; try done.
      rewrite Hrw.
      destruct (IH (TargetList r) (upd c (<[p:=b]> (cat_contents c)) (pair_calls p b)))
        as (l & Hc & Hw & _).
      exists (pair_calls p b ++ l). rewrite Hc, upd_calls, <- app_assoc.
      split; [done|]. split.
      * by rewrite forallb_app, Hw, pair_calls_write.
      * intros Hnil. by apply app_eq_nil in Hnil as [? _].
    + unfold bind at 1. unfold bind at 1. rewrite make_target_playlist_run. unfold ret.
      set (p := "created:" +:+ pretty (cat_created c)).
      set (c0 := mkCatalog _ _ _ _ _ _ _).
      pose proof (reset_write_run p b c0) as Hrw. unfold bind in Hrw. unfold bind.
      destruct (reset_playlist p c0) as [[[]|e|] c1] eqn:Hreset; try done.
      rewrite Hrw.
      destruct (IH (TargetGen n) (upd c0 (<[p:=b]> (cat_contents c0)) (pair_calls p b)))
        as (l & Hc & Hw & _).
      exists (create_calls (cat_user c) ++ pair_calls p b ++ l).
      rewrite Hc, upd_calls. subst c0. cbn [cat_calls]. rewrite <- !app_assoc.
      split; [done|]. split.
      * rewrite !forallb_app, Hw, pair_calls_write. done.
      * intros Hnil. by apply app_eq_nil in Hnil as [? _].
Qed.

(** X11. Whatever the configuration, the catalog and the outcome, [split]
    makes all its reads (playlist pages, album lookups) before its first
    playlist creation or modification; when it stops before that point the
    catalog is unchanged apart from the log of reads (nothing has been
    created, cleared or written). *)
Theorem split_reads_before_writes
    (self : Splitter) (by_arg : option (mode_value * list (list string)))
    (playlist_arg : option string) (into_arg : option (list string))
    (fuel : nat) (c : Catalog) :
  ∃ reads writes,
    cat_calls (split self by_arg playlist_arg into_arg fuel c).2
    = cat_calls c ++ reads ++ writes ∧
    forallb is_read reads = true ∧ forallb is_write writes = true ∧
    (writes = [] →
     (split self by_arg playlist_arg into_arg fuel c).2 = add_calls c reads).
Proof.
  assert (∀ origin mode pools t,
            ∃ reads writes,
              cat_calls (do_split fuel origin mode pools t c).2
              = cat_calls c ++ reads ++ writes ∧
              forallb is_read reads = true ∧ forallb is_write writes = true ∧
              (writes = [] →
               (do_split fuel origin mode pools t c).2 = add_calls c reads))
    as Hdo.
  { intros origin mode pools t. unfold do_split, bind.
    destruct (get_all_playlist_items_state fuel origin c) as (l1 & Hs1 & Hr1).
    destruct (get_all_playlist_items fuel origin c) as [[items|e|] c1];
      simpl in Hs1; subst c1;
      try (exists l1, []; rewrite app_nil_r; by repeat split).
    destruct (classify_state mode pools (map item_track items) (add_calls c l1))
      as (l2 & Hs2 & Hr2).
    rewrite add_calls_add_calls in Hs2.
    assert (forallb is_read (l1 ++ l2) = true) as Hr
      by (by rewrite forallb_app, Hr1, Hr2).
    destruct (classify mode pools (map item_track items) (add_calls c l1))
      as [[buckets|e|] c2]; simpl in Hs2; subst c2;
      try (exists (l1 ++ l2), []; rewrite app_nil_r; by repeat split).
    destruct (zip_loop_calls buckets t (add_calls c (l1 ++ l2))) as (w & Hc & Hw & Hnil).
    exists (l1 ++ l2), w. rewrite Hc, add_calls_calls, <- !app_assoc.
    split; [done|]. split; [done|]. split; [done|].
    intros Hw0. by apply Hnil. }
  assert (∃ reads writes : list Call,
            cat_calls c = cat_calls c ++ reads ++ writes ∧
            forallb is_read reads = true ∧ forallb is_write writes = true ∧
            (writes = [] → c = add_calls c reads)) as Hstay.
  { exists [], []. rewrite add_calls_nil. by rewrite app_nil_r. }
  unfold split.
  set (s := merge self by_arg playlist_arg into_arg).
  destruct (origin_playlist s) as [origin|]; [|exact Hstay].
  destruct (split_type s) as [mode|]; [|exact Hstay].
  destruct (split_pools s) as [pools|]; [|exact Hstay].
  destruct (target_playlists s) as [[l|n]|]; unfold bind; simpl; unfold ret.
  - destruct (bool_decide (length pools ≠ length l)
              && bool_decide (length pools + 1 ≠ length l)); [exact Hstay|].
    apply Hdo.
  - exact Hstay.
  - apply Hdo.
Qed.

(** ** Label lookups that fail *)

Lemma label_loop_fail pools l1 t l2 tp c :
  length tp = length pools + 1 →
  (∀ t', t' ∈ l1 → is_Some (cat_albums c !! track_album t')) →
  cat_albums c !! track_album t = None →
  label_loop pools (l1 ++ t :: l2) tp c
  = (Raise album_not_found,
     add_calls c (map (λ t, CAlbum (track_album t)) (l1 ++ [t]))).
Proof.
  revert tp c. induction l1 as [|t1 l1 IH]; intros tp c Hlen Hall Hnone.
  - simpl. unfold bind, client_album_label, bind, log; simpl. by rewrite Hnone.
  - destruct (Hall t1) as [label Hlabel]; [apply list_elem_of_here|].
    cbn [app label_loop]. unfold bind.
    rewrite (client_album_label_run _ label) by done.
    unfold enumerate. rewrite label_scan_run by (simpl; lia).
    rewrite IH.
    + by rewrite add_calls_add_calls.
    + by rewrite length_alter.
    + intros t' Hin. apply Hall. by apply list_elem_of_further.
    + done.
Qed.

(** X12. In label mode a failing album lookup aborts the classification
    at once: the lookups made are those of the tracks up to and including
    the failing one, the later tracks are never looked up, no buckets are
    returned, and [split] ends with the catalog error before any destination
    has been created, cleared or written. *)
Theorem split_by_label_lookup_failure
    (pools : list (list string)) (l1 l2 : list Track) (t : Track) (c : Catalog) :
  (∀ t', t' ∈ l1 → is_Some (cat_albums c !! track_album t')) →
  cat_albums c !! track_album t = None →
  split_by_label pools (l1 ++ t :: l2) c
  = (Raise album_not_found,
     add_calls c (map (λ t, CAlbum (track_album t)) (l1 ++ [t]))) ∧
  (∀ self by_arg playlist_arg into_arg fuel c0 origin items,
     let s := merge self by_arg playlist_arg into_arg in
     origin_playlist s = Some origin → split_type s = Some (MStr "label") →
     split_pools s = Some pools →
     (target_playlists s = None ∨
      ∃ l, target_playlists s = Some (TargetList l) ∧
           (length l = length pools ∨ length l = length pools + 1)) →
     get_all_playlist_items fuel origin c0 = (Ok items, c) →
     map item_track items = l1 ++ t :: l2 →
     split self by_arg playlist_arg into_arg fuel c0
     = (Raise album_not_found,
        add_calls c (map (λ t, CAlbum (track_album t)) (l1 ++ [t])))).
Proof.
  intros Hall Hnone.
  assert (split_by_label pools (l1 ++ t :: l2) c
          = (Raise album_not_found,
             add_calls c (map (λ t, CAlbum (track_album t)) (l1 ++ [t])))) as Hfail.
  { unfold split_by_label. apply label_loop_fail; [|done|done].
    apply fresh_track_pools_length. }
  split; [exact Hfail|].
  intros self by_arg playlist_arg into_arg fuel c0 origin items s Ho Hm Hp Ht Hget Htr.
  rewrite (split_run _ _ _ _ _ _ origin (MStr "label") pools) by done. fold s.
  assert (∀ tg, do_split fuel origin (MStr "label") pools tg c0
                = (Raise album_not_found,
                   add_calls c (map (λ t, CAlbum (track_album t)) (l1 ++ [t]))))
    as Hdo.
  { intros tg. rewrite (do_split_run _ _ _ _ _ _ items c) by done.
    unfold bind. rewrite classify_run. simpl. by rewrite Htr, Hfail. }
  destruct Ht as [-> | (l & -> & Hlen)]; [apply Hdo|].
  rewrite decide_True by done. apply Hdo.
Qed.

(** ** Where the buckets end up *)

Lemma written_not_in (m : gmap string (list string)) bs l p :
  p ∉ l → written m (zip bs l) !! p = m !! p.
Proof.
  revert bs m. induction l as [|q l IH]; intros bs m Hp.
  - by destruct bs.
  - destruct bs as [|b bs]; [done|].
    apply not_elem_of_cons in Hp as [Hne Hp].
    simpl. unfold written in IH. rewrite IH by done.
    by rewrite lookup_insert_ne.
Qed.

Lemma written_last (m : gmap string (list string)) bs l i p b :
  l !! i = Some p → bs !! i = Some b →
  (∀ j, i < j → l !! j ≠ Some p) →
  written m (zip bs l) !! p = Some b.
Proof.
  revert bs m i. induction l as [|q l IH]; intros bs m i Hl Hb Hlast; [done|].
  destruct bs as [|b0 bs]; [done|].
  destruct i as [|i]; simpl in Hl, Hb.
  - injection Hl as ->. injection Hb as ->.
    change (written m (zip (b :: bs) (p :: l)))
      with (written (<[p:=b]> m) (zip bs l)).
    rewrite written_not_in; [apply lookup_insert_eq|].
    intros [j Hj]%list_elem_of_lookup_1. apply (Hlast (S j)); [lia|done].
  - change (written m (zip (b0 :: bs) (q :: l)))
      with (written (<[q:=b0]> m) (zip bs l)).
    apply (IH bs _ i); [done|done|].
    intros j Hj. apply (Hlast (S j)). lia.
Qed.

Lemma label_loop_length pools tracks tp c buckets c' :
  length tp = length pools + 1 →
  label_loop pools tracks tp c = (Ok buckets, c') →
  length buckets = length pools + 1.
Proof.
  revert tp c. induction tracks as [|t tracks IH]; intros tp c Hlen H.
  - injection H as <- _. done.
  - cbn [label_loop] in H. unfold bind in H.
    destruct (client_album_label (track_album t) c) as [[label|e|] c1]; try done.
    unfold enumerate in H. rewrite label_scan_run in H by (simpl; lia).
    apply IH in H; [done|]. by rewrite length_alter.
Qed.

Lemma classify_ok_length mode pools tracks c buckets c' :
  classify mode pools tracks c = (Ok buckets, c') →
  length buckets = length pools + 1.
Proof.
  rewrite classify_run. destruct mode as [s|m]; [|done].
  destruct (String.eqb "artist" s).
  { rewrite split_by_artist_run. intros [= <- _].
    by rewrite distribute_length, length_replicate. }
  destruct (String.eqb "label" s); [|done].
  unfold split_by_label. apply label_loop_length, fresh_track_pools_length.
Qed.

Lemma split_list_run
    self by_arg playlist_arg into_arg fuel c origin mode pools l items c1 buckets c2 :
  let s := merge self by_arg playlist_arg into_arg in
  origin_playlist s = Some origin → split_type s = Some mode →
  split_pools s = Some pools → target_playlists s = Some (TargetList l) →
  length l = length pools + 1 →
  get_all_playlist_items fuel origin c = (Ok items, c1) →
  classify mode pools (map item_track items) c1 = (Ok buckets, c2) →
  split self by_arg playlist_arg into_arg fuel c
  = (Ok tt, upd c2 (written (cat_contents c2) (zip buckets l))
              (concat (zip_with (λ b p, pair_calls p b) buckets l))).
Proof.
  intros s Ho Hm Hp Ht Hlen Hget Hcl.
  rewrite (split_run _ _ _ _ _ _ origin mode pools) by done.
  fold s. rewrite Ht, decide_True by lia.
  rewrite (do_split_run _ _ _ _ _ _ items c1) by done.
  unfold bind. rewrite Hcl.
  destruct l as [|p l]; [simpl in Hlen; lia|].
  rewrite zip_loop_list, decide_True; [done|].
  apply classify_ok_length in Hcl. lia.
Qed.

(** X13. With [len(pools) + 1] targets, a fetched origin and a
    classification that succeeds (either mode), [split] completes; each
    target ends holding exactly the bucket of the last position at which it
    is listed, so with distinct targets target [i] holds bucket [i], while a
    target listed twice loses the bucket of its earlier position; playlists
    that are not targets keep their contents. *)
Theorem split_targets_final_contents
    (self : Splitter) (by_arg : option (mode_value * list (list string)))
    (playlist_arg : option string) (into_arg : option (list string))
    (fuel : nat) (c : Catalog) (origin : string) (mode : mode_value)
    (pools : list (list string)) (l : list string) (items : list Item)
    (c1 : Catalog) (buckets : list (list string)) (c2 : Catalog) :
  let s := merge self by_arg playlist_arg into_arg in
  let r := split self by_arg playlist_arg into_arg fuel c in
  origin_playlist s = Some origin → split_type s = Some mode →
  split_pools s = Some pools → target_playlists s = Some (TargetList l) →
  length l = length pools + 1 →
  get_all_playlist_items fuel origin c = (Ok items, c1) →
  classify mode pools (map item_track items) c1 = (Ok buckets, c2) →
  r.1 = Ok tt ∧
  (∀ i p b, l !! i = Some p → buckets !! i = Some b →
     (∀ j, i < j → l !! j ≠ Some p) →
     cat_contents r.2 !! p = Some b) ∧
  (NoDup l → ∀ i p b, l !! i = Some p → buckets !! i = Some b →
     cat_contents r.2 !! p = Some b) ∧
  (∀ q, q ∉ l → cat_contents r.2 !! q = cat_contents c2 !! q).
Proof.
  intros s r Ho Hm Hp Ht Hlen Hget Hcl. subst r.
  rewrite (split_list_run _ _ _ _ _ _ origin mode pools l items c1 buckets c2)
    by done.
  simpl. split; [done|]. split; [|split].
  - intros i p b Hl Hb Hlast. by eapply written_last.
  - intros Hnd i p b Hl Hb. eapply written_last; [done|done|].
    intros j Hj Hlj. assert (i = j) by (by eapply NoDup_lookup). lia.
  - intros q Hq. by apply written_not_in.
Qed.

(** ** Automatically created destinations *)

Lemma zip_loop_gen_calls n buckets c :
  length buckets = n + 1 →
  cat_calls (zip_loop buckets (TargetGen n) c).2
  = cat_calls c
    ++ concat (imap (λ i b, create_calls (cat_user c)
                            ++ pair_calls ("created:" +:+ pretty (cat_created c + i)) b)
                 (take n buckets)).
Proof.
  revert buckets c. induction n as [|n IH]; intros buckets c Hlen.
  - destruct buckets as [|b buckets]; [simpl in Hlen; lia|].
    simpl. by rewrite app_nil_r.
  - destruct buckets as [|b buckets]; [simpl in Hlen; lia|].
    cbn [zip_loop next_target take imap concat].
    unfold bind at 1. unfold bind at 1. rewrite make_target_playlist_run. unfold ret.
    set (p := "created:" +:+ pretty (cat_created c)).
    set (c0 := mkCatalog _ _ _ _ _ _ _).
    pose proof (reset_write_run p b c0) as Hrw. unfold bind in Hrw. unfold bind.
    destruct (reset_playlist p c0) as [[[]|e|] c1] eqn:Hreset; try done.
    rewrite Hrw, IH by (simpl in Hlen; lia).
    rewrite upd_calls. subst c0. cbn [cat_calls cat_user cat_created upd].
    rewrite <- !app_assoc. do 2 f_equal.
    replace (cat_created c + 0) with (cat_created c) by lia. fold p.
    do 2 f_equal. apply imap_ext. intros i x _. simpl.
    by replace (cat_created c + S i) with (S (cat_created c + i)) by lia.
Qed.

(** X14. With the targets unset, a fetched origin and a classification
    that succeeds, [split] asks for the current user and creates a playlist
    named ['test1'] once per pool, just before writing the pool's bucket to
    it; it creates exactly [len(pools)] playlists, never writes the overflow
    bucket and ends with the [ValueError] of the strict [zip]. *)
Theorem split_auto_creation_calls
    (self : Splitter) (by_arg : option (mode_value * list (list string)))
    (playlist_arg : option string) (into_arg : option (list string))
    (fuel : nat) (c : Catalog) (origin : string) (mode : mode_value)
    (pools : list (list string)) (items : list Item)
    (c1 : Catalog) (buckets : list (list string)) (c2 : Catalog) :
  let s := merge self by_arg playlist_arg into_arg in
  let r := split self by_arg playlist_arg into_arg fuel c in
  origin_playlist s = Some origin → split_type s = Some mode →
  split_pools s = Some pools → target_playlists s = None →
  get_all_playlist_items fuel origin c = (Ok items, c1) →
  classify mode pools (map item_track items) c1 = (Ok buckets, c2) →
  r.1 = Raise zip_shorter ∧
  cat_created r.2 = cat_created c2 + length pools ∧
  cat_calls r.2
  = cat_calls c2
    ++ concat (imap (λ i b, create_calls (cat_user c2)
                            ++ pair_calls ("created:" +:+ pretty (cat_created c2 + i)) b)
                 (take (length pools) buckets)).
Proof.
  intros s r Ho Hm Hp Ht Hget Hcl. subst r.
  rewrite (split_run _ _ _ _ _ _ origin mode pools) by done. fold s. rewrite Ht.
  rewrite (do_split_run _ _ _ _ _ _ items c1) by done.
  unfold bind. rewrite Hcl.
  pose proof (classify_ok_length _ _ _ _ _ _ Hcl) as Hlen.
  pose proof (zip_loop_gen_calls (length pools) buckets c2 Hlen) as Hcalls.
  destruct (zip_loop_gen_short (length pools) buckets c2 Hlen) as (c' & Hz & Hcr).
  rewrite Hz in *. done.
Qed.

(** ** Classification as a function of its inputs *)

Lemma distribute_replicate_app {A} (key : A → string) (cls : A → nat) n l1 l2 :
  distribute key cls (replicate n []) (l1 ++ l2)
  = zip_with app (distribute key cls (replicate n []) l1)
      (distribute key cls (replicate n []) l2).
Proof.
  apply list_eq. intros i.
  rewrite lookup_zip_with, !distribute_lookup.
  destruct (decide (i < n)) as [Hi|Hi].
  - rewrite lookup_replicate_2 by done. simpl.
    by rewrite filter_app, map_app.
  - by rewrite (proj1 (lookup_replicate_None n [] i)) by lia.
Qed.

(** X15. Classification distributes over concatenation of the track
    list: the buckets of [l1 ++ l2] are, bucket by bucket, the buckets of
    [l1] followed by the buckets of [l2] (artist mode; label mode when every
    album resolves). *)
Theorem classification_of_concatenation
    (pools : list (list string)) (l1 l2 : list Track) (c : Catalog) :
  (∃ b1 b2,
     split_by_artist pools l1 c = (Ok b1, c) ∧
     split_by_artist pools l2 c = (Ok b2, c) ∧
     split_by_artist pools (l1 ++ l2) c = (Ok (zip_with app b1 b2), c)) ∧
  ((∀ t, t ∈ l1 ++ l2 → is_Some (cat_albums c !! track_album t)) →
   ∃ b1 b2,
     (split_by_label pools l1 c).1 = Ok b1 ∧
     (split_by_label pools l2 c).1 = Ok b2 ∧
     (split_by_label pools (l1 ++ l2) c).1 = Ok (zip_with app b1 b2)).
Proof.
  split.
  - eexists _, _. rewrite !split_by_artist_run.
    split; [done|]. split; [done|]. by rewrite distribute_replicate_app.
  - intros Hall. eexists _, _. unfold split_by_label.
    rewrite !label_loop_run; try apply fresh_track_pools_length; try done.
    + split; [done|]. split; [done|]. simpl. unfold fresh_track_pools.
      by rewrite distribute_replicate_app.
    + intros t Ht. apply Hall, elem_of_app. by right.
    + intros t Ht. apply Hall, elem_of_app. by left.
Qed.

Lemma artists_intersect_ext s p q :
  (∀ a, a ∈ p ↔ a ∈ q) → artists_intersect s p = artists_intersect s q.
Proof.
  intros H. unfold artists_intersect.
  assert ((list_to_set p : gset string) = list_to_set q) as ->; [|done].
  apply set_eq. intros a. by rewrite !elem_of_list_to_set.
Qed.

Lemma first_match_ext test test' pools pools' :
  Forall2 (λ p q, test p = test' q) pools pools' →
  first_match test pools = first_match test' pools'.
Proof. induction 1 as [|p q ps qs Hpq _ IH]; simpl; [done|]. by rewrite Hpq, IH. Qed.

Lemma distribute_Forall2 {A} (key : A → string) (cls cls' : A → nat) tp l l' :
  Forall2 (λ t t', key t = key t' ∧ cls t = cls' t') l l' →
  distribute key cls tp l = distribute key cls' tp l'.
Proof.
  intros H. revert tp. induction H as [|t t' l l' [Hk Hc] _ IH]; intros tp; [done|].
  rewrite !distribute_cons, Hk, Hc. apply IH.
Qed.

(** X16. Artist matching treats pools and artist lists as sets: the
    result of artist-mode classification is unchanged when the ids inside a
    pool, or the artists of a track, are reordered or repeated.  (The order
    of the pools themselves does matter.) *)
Theorem split_by_artist_set_semantics
    (pools pools' : list (list string)) (tracks tracks' : list Track) (c : Catalog) :
  Forall2 (λ p q, ∀ a, a ∈ p ↔ a ∈ q) pools pools' →
  Forall2 (λ t t', track_id t = track_id t' ∧
                   ∀ a, a ∈ track_artists t ↔ a ∈ track_artists t') tracks tracks' →
  split_by_artist pools tracks c = split_by_artist pools' tracks' c.
Proof.
  intros Hpools Htracks. rewrite !split_by_artist_run.
  rewrite <- (Forall2_length _ _ _ Hpools). do 2 f_equal.
  apply distribute_Forall2.
  eapply Forall2_impl; [exact Htracks|]. intros t t' [Hid Hart].
  split; [done|]. unfold artist_class.
  assert (slim_artists (slim t) = slim_artists (slim t')) as ->.
  { simpl. apply set_eq. intros a. by rewrite !elem_of_list_to_set. }
  apply first_match_ext.
  eapply Forall2_impl; [exact Hpools|]. intros p q Hpq.
  by apply artists_intersect_ext.
Qed.

Lemma bucket_nil {A} (key : A → string) (cls : A → nat) i l :
  (∀ t, t ∈ l → cls t ≠ i) → map key (filter (λ t, cls t = i) l) = [].
Proof.
  intros H. destruct (map key (filter (λ t, cls t = i) l)) as [|x r] eqn:E; [done|].
  assert (x ∈ map key (filter (λ t, cls t = i) l)) as Hx
    by (rewrite E; apply list_elem_of_here).
  apply elem_of_bucket in Hx as (t & Hin & _ & Hc). by destruct (H t Hin).
Qed.

(** X17. Edge cases of artist mode: the bucket of an empty pool stays
    empty, a track without artists always lands in the overflow bucket, and
    an empty track list gives [len(pools) + 1] empty buckets. *)
Theorem split_by_artist_edge_cases
    (pools : list (list string)) (tracks : list Track) (c : Catalog) :
  ∃ buckets,
    split_by_artist pools tracks c = (Ok buckets, c) ∧
    (∀ i, pools !! i = Some [] → buckets !! i = Some []) ∧
    (∀ t, t ∈ tracks → track_artists t = [] →
       ∃ overflow, buckets !! length pools = Some overflow ∧ track_id t ∈ overflow) ∧
    (tracks = [] → buckets = replicate (length pools + 1) []).
Proof.
  eexists. split; [apply split_by_artist_run|]. split; [|split].
  - intros i Hi. pose proof (lookup_lt_Some _ _ _ Hi) as Hlt.
    rewrite buckets_lookup by lia. f_equal. apply bucket_nil.
    intros t _ Hc. apply artist_class_spec in Hc as [(pool & Hl & Hs & _) | [-> _]].
    + rewrite Hi in Hl. injection Hl as <-.
      destruct Hs as (a & _ & Ha). by apply elem_of_nil in Ha.
    + lia.
  - intros t Hin Hart. eexists. split; [by apply buckets_lookup|].
    apply elem_of_bucket. exists t. split; [done|]. split; [done|].
    apply artist_class_spec. right. split; [done|].
    intros pool _ (a & Ha & _). rewrite Hart in Ha. by apply elem_of_nil in Ha.
  - by intros ->.
Qed.

(** ** The cost of one destination *)

(** X18. [write_playlist] clears the destination itself, so the
    [reset_playlist] call made before it in [__do_split] does not change the
    result; clearing twice, a (bucket, destination) pair costs four clearing
    calls plus one append call per chunk of 50 ids. *)
Theorem reset_before_write_is_redundant
    (p : string) (track_list : list string) (c : Catalog) :
  cat_contents ((reset_playlist p ;; write_playlist p track_list) c).2
  = cat_contents (write_playlist p track_list c).2 ∧
  cat_calls ((reset_playlist p ;; write_playlist p track_list) c).2
  = cat_calls c ++ pair_calls p track_list ∧
  cat_calls (write_playlist p track_list c).2
  = cat_calls c ++ drop 2 (pair_calls p track_list) ∧
  length (pair_calls p track_list) = 4 + (length track_list + 49) `div` 50.
Proof.
  rewrite reset_write_run, write_playlist_run. simpl.
  split; [done|]. split; [done|]. split; [done|].
  by rewrite length_map, chunk_track_list_length.
Qed.

(** ** The further properties on the examples *)

Lemma example_env_complete : complete (env_credentials example_env).
Proof. repeat split; by eexists. Defined.

Lemma empty_env_incomplete : ¬ complete (env_credentials ∅).
Proof. intros ([x Hx] & _). discriminate Hx. Defined.

Lemma login_from_environment_witness :
  login example_env None (mkAuth None None)
  = (Ok tt, mkAuth (Some (client_of (env_credentials example_env)))
              (Some (env_credentials example_env))) ∧
  login ∅ None (mkAuth None None)
  = (Raise credentials_not_found, mkAuth None (Some (env_credentials ∅))).
Proof.
  split.
  - exact (proj1 (login_from_environment example_env None (mkAuth None None)
                    eq_refl eq_refl) example_env_complete).
  - exact (proj2 (login_from_environment ∅ None (mkAuth None None)
                    eq_refl eq_refl) empty_env_incomplete).
Defined.

Lemma incomplete_credentials_incomplete : ¬ complete incomplete_credentials.
Proof. intros ([x Hx] & _). discriminate Hx. Defined.

Lemma login_stored_credentials_shadow_environment_witness :
  complete (env_credentials example_env) ∧
  login example_env None (mkAuth None (Some incomplete_credentials))
  = (Raise credentials_not_found, mkAuth None (Some incomplete_credentials)).
Proof.
  split; [exact example_env_complete|].
  exact (proj2 (login_stored_credentials_shadow_environment example_env None
                  (mkAuth None (Some incomplete_credentials))
                  incomplete_credentials eq_refl eq_refl)
           incomplete_credentials_incomplete).
Defined.

Lemma login_failure_is_sticky_witness :
  complete (env_credentials example_env) ∧
  login example_env None (login ∅ None (mkAuth None None)).2
  = (Raise credentials_not_found, (login ∅ None (mkAuth None None)).2).
Proof.
  split; [exact example_env_complete|].
  exact (proj2 (login_failure_is_sticky ∅ example_env (mkAuth None None)
                  eq_refl empty_env_incomplete)).
Defined.

Lemma example_dict_not_empty : example_dict ≠ ∅.
Proof.
  intros H. assert (example_dict !! "client_id" = (∅ : pydict) !! "client_id") as H'
    by (by rewrite H).
  discriminate H'.
Defined.

Lemma login_argument_overrides_witness :
  login ∅ (Some example_dict) (mkAuth None (Some incomplete_credentials))
  = (Ok tt,
     mkAuth (Some (mkClient (Some "id2") (Some "secret2") (Some "uri2")
                     AUTHORIZATION_SCOPES))
       (Some (mkCredentials (Some "id2") (Some "secret2") (Some "uri2")))).
Proof.
  apply (proj1 (proj1 (login_argument_overrides ∅
                         (mkAuth None (Some incomplete_credentials)) example_dict)
                  example_dict_not_empty)
           (mkCredentials (Some "id2") (Some "secret2") (Some "uri2"))).
  - reflexivity.
  - repeat split; by eexists.
Defined.

Lemma init_auth_dict_witness :
  (∃ self, init_auth (LoginDict example_dict) = Ok self) ∧
  ∃ msg, init_auth (LoginDict ∅) = Raise (TypeError msg).
Proof.
  split.
  - apply (proj1 (init_auth_dict example_dict)). reflexivity.
  - apply (proj2 (proj2 (init_auth_dict ∅))). intros H.
    assert ("client_id" ∈ dom (∅ : pydict)) as Hin by (rewrite H; set_solver).
    by apply elem_of_dom in Hin as [x Hx].
Defined.

Lemma enter_ignores_given_client_witness :
  enter example_env (mkAuth (Some given_client) None)
  = (Ok tt, mkAuth (Some (client_of (env_credentials example_env)))
              (Some (env_credentials example_env))) ∧
  enter ∅ (mkAuth (Some given_client) None)
  = (Raise credentials_not_found,
     mkAuth (Some given_client) (Some (env_credentials ∅))).
Proof.
  destruct (enter_ignores_given_client example_env given_client) as (_ & Hok & _).
  destruct (enter_ignores_given_client ∅ given_client) as (_ & _ & Hfail).
  split; [exact (Hok example_env_complete)|exact (Hfail empty_env_incomplete)].
Defined.

Lemma get_all_playlist_items_cycle_witness :
  (get_all_playlist_items 1000 "origin" looping_catalog).1 = OutOfFuel.
Proof.
  apply (get_all_playlist_items_cycle "origin" "loop" page_loop looping_catalog 1000);
    reflexivity.
Defined.

Lemma split_reads_before_writes_witness :
  ∃ reads,
    (split init None None None 0 example_catalog).2
    = add_calls example_catalog reads.
Proof.
  destruct (split_reads_before_writes init None None None 0 example_catalog)
    as (reads & writes & Hcalls & _ & _ & Hnil).
  exists reads. apply Hnil.
  change ([] = [] ++ reads ++ writes) in Hcalls. simpl in Hcalls.
  symmetry in Hcalls. by apply app_eq_nil in Hcalls as [_ ?].
Defined.

Lemma split_by_label_lookup_failure_witness :
  split_by_label label_pools [track1; track2; track3] catalog_missing_album
  = (Raise album_not_found,
     add_calls catalog_missing_album
       [CAlbum "album1"; CAlbum "album2"; CAlbum "album3"]).
Proof.
  apply (proj1 (split_by_label_lookup_failure label_pools [track1; track2] []
                  track3 catalog_missing_album
                  ltac:(intros t' Ht'; elem_cases Ht'; by eexists)
                  eq_refl)).
Defined.

Lemma split_targets_final_contents_witness :
  let r := split (into (configured example_pools) ["p0"; "p1"; "p2"])
             None None None 1 example_catalog in
  r.1 = Ok tt ∧
  cat_contents r.2 !! "p2" = Some ["track3"].
Proof.
  intros r.
  destruct (split_targets_final_contents
              (into (configured example_pools) ["p0"; "p1"; "p2"])
              None None None 1 example_catalog "origin" (MStr "artist")
              example_pools ["p0"; "p1"; "p2"] example_items fetched_catalog
              [["track1"]; ["track2"]; ["track3"]] fetched_catalog
              eq_refl eq_refl eq_refl eq_refl eq_refl eq_refl eq_refl)
    as (Hok & Hlast & _ & _).
  split; [exact Hok|].
  apply (Hlast 2 "p2" ["track3"]); [reflexivity|reflexivity|].
  intros [|[|[|j]]] Hj; (lia || discriminate).
Defined.

Lemma split_auto_creation_calls_witness :
  let r := split (configured example_pools) None None None 1 example_catalog in
  r.1 = Raise zip_shorter ∧ cat_created r.2 = 2.
Proof.
  intros r.
  destruct (split_auto_creation_calls (configured example_pools)
              None None None 1 example_catalog "origin" (MStr "artist")
              example_pools example_items fetched_catalog
              [["track1"]; ["track2"]; ["track3"]] fetched_catalog
              eq_refl eq_refl eq_refl eq_refl eq_refl eq_refl)
    as (Hraise & Hcreated & _).
  split; [exact Hraise|exact Hcreated].
Defined.

Lemma classification_of_concatenation_witness :
  ∃ b1 b2,
    (split_by_label label_pools [track1] example_catalog).1 = Ok b1 ∧
    (split_by_label label_pools [track2; track3] example_catalog).1 = Ok b2 ∧
    (split_by_label label_pools ([track1] ++ [track2; track3]) example_catalog).1
    = Ok (zip_with app b1 b2).
Proof.
  apply (proj2 (classification_of_concatenation label_pools [track1]
                  [track2; track3] example_catalog)).
  intros t Ht. simpl in Ht. elem_cases Ht; by eexists.
Defined.

Lemma split_by_artist_set_semantics_witness :
  split_by_artist [["A"; "C"]] [track1; track_both] example_catalog
  = split_by_artist [["C"; "A"; "C"]]
      [track1; mkTrack "both" ["A"; "C"; "A"] "album1"] example_catalog.
Proof.
  apply split_by_artist_set_semantics.
  - constructor; [|constructor].
    intros a. rewrite ?elem_of_cons, ?elem_of_nil. tauto.
  - constructor; [|constructor; [|constructor]].
    + split; [reflexivity|]. intros a. reflexivity.
    + split; [reflexivity|]. intros a. simpl.
      rewrite ?elem_of_cons, ?elem_of_nil. tauto.
Defined.

Lemma split_by_artist_edge_cases_witness :
  ∃ buckets,
    split_by_artist [[]; ["A"]] [track_no_artist; track1] example_catalog
    = (Ok buckets, example_catalog) ∧
    buckets !! 0 = Some [] ∧
    ∃ overflow, buckets !! 2 = Some overflow ∧ "silent" ∈ overflow.
Proof.
  destruct (split_by_artist_edge_cases [[]; ["A"]] [track_no_artist; track1]
              example_catalog) as (buckets & Hrun & Hempty & Hover & _).
  exists buckets. split; [exact Hrun|]. split; [exact (Hempty 0 eq_refl)|].
  apply (Hover track_no_artist); [left|reflexivity].
Defined.
